(** * Authorization flows of the Spotify Web API client

    A shallow embedding of [src/auth/auth_code.ts] (class [AuthCode]) and
    [auth/implicit_grant.ts] ([getRedirectURL], [parseCallbackData]),
    together with the parts of the JavaScript platform they call
    ([String.prototype.substring], [Array.prototype.join], [URL],
    [URLSearchParams], [Object.fromEntries], [fetch]).  The helpers they
    import from [shared] and [auth/general] are not among the sources; each
    is modelled from the specification and marked as such.

    JavaScript strings are sequences of UTF-16 code units and are modelled
    as such: [jsstring] is a list of code units.  The
    application/x-www-form-urlencoded serializer and parser of the URL
    standard work on the UTF-8 bytes of a string, so the transcoding steps
    (conversion to scalar values, UTF-8 encoding, lossy UTF-8 decoding) are
    part of the model. *)

From Stdlib Require Import List String Ascii NArith ZArith Bool Arith Lia.
Import ListNotations.

Set Implicit Arguments.
Local Open Scope N_scope.

(** ** JavaScript strings *)

Module JsString.

Definition code_unit := N.
Definition jsstring := list code_unit.

(** The string literal [s] of the source, every character of which is
    ASCII. *)
Definition js (s : string) : jsstring :=
  map N_of_ascii (list_ascii_of_string s).

Definition eqb (a b : jsstring) : bool :=
  if list_eq_dec N.eq_dec a b then true else false.

(** [s.substring(start)] with [start] a code-unit index. *)
Definition substring (start : nat) (s : jsstring) : jsstring := skipn start s.

(** [xs.join(sep)] on an array of strings. *)
Fixpoint join (sep : jsstring) (xs : list jsstring) : jsstring :=
  match xs with
  | [] => []
  | [x] => x
  | x :: rest => x ++ sep ++ join sep rest
  end.

(** *** Transcoding *)

Definition is_lead (u : code_unit) : bool := (0xD800 <=? u) && (u <=? 0xDBFF).
Definition is_trail (u : code_unit) : bool := (0xDC00 <=? u) && (u <=? 0xDFFF).

(** Conversion of a string to a sequence of Unicode scalar values (WebIDL
    USVString): a surrogate pair becomes one scalar value, a lone surrogate
    becomes U+FFFD. *)
Fixpoint to_usv (s : jsstring) : list N :=
  match s with
  | [] => []
  | u :: rest =>
      if is_lead u then
        match rest with
        | v :: rest' =>
            if is_trail v
            then (0x10000 + (u - 0xD800) * 0x400 + (v - 0xDC00)) :: to_usv rest'
            else 0xFFFD :: to_usv rest
        | [] => [0xFFFD]
        end
      else if is_trail u then 0xFFFD :: to_usv rest
      else u :: to_usv rest
  end.

(** Scalar values back to UTF-16 code units. *)
Definition utf16_of_scalar (c : N) : jsstring :=
  if c <? 0x10000 then [c]
  else [0xD800 + (c - 0x10000) / 0x400; 0xDC00 + (c - 0x10000) mod 0x400].

Definition of_usv (cs : list N) : jsstring := flat_map utf16_of_scalar cs.

(** UTF-8 encoding of one scalar value.  Scalar values are below 0x110000,
    for which the lead byte of the four-byte form is at most 0xF4. *)
Definition utf8_of_scalar (c : N) : list N :=
  if c <? 0x80 then [c]
  else if c <? 0x800 then [0xC0 + c / 0x40; 0x80 + c mod 0x40]
  else if c <? 0x10000 then
    [0xE0 + c / 0x1000; 0x80 + (c / 0x40) mod 0x40; 0x80 + c mod 0x40]
  else
    [0xF0 + (c / 0x40000) mod 8; 0x80 + (c / 0x1000) mod 0x40;
     0x80 + (c / 0x40) mod 0x40; 0x80 + c mod 0x40].

Definition utf8_encode (cs : list N) : list N := flat_map utf8_of_scalar cs.

(** The UTF-8 decoder of the Encoding standard ("UTF-8 decode without
    BOM"): an ill-formed sequence yields U+FFFD and decoding resumes at the
    offending byte. *)
Record decoder := {
  dec_cp : N;        (* code point accumulated so far *)
  dec_needed : nat;  (* continuation bytes still expected *)
  dec_lower : N;
  dec_upper : N
}.

Definition dec_init : decoder :=
  {| dec_cp := 0; dec_needed := 0; dec_lower := 0x80; dec_upper := 0xBF |}.

Definition dec_first (b : N) : list N * decoder :=
  if b <=? 0x7F then ([b], dec_init)
  else if (0xC2 <=? b) && (b <=? 0xDF) then
    ([], {| dec_cp := b mod 0x20; dec_needed := 1;
            dec_lower := 0x80; dec_upper := 0xBF |})
  else if (0xE0 <=? b) && (b <=? 0xEF) then
    ([], {| dec_cp := b mod 0x10; dec_needed := 2;
            dec_lower := if b =? 0xE0 then 0xA0 else 0x80;
            dec_upper := if b =? 0xED then 0x9F else 0xBF |})
  else if (0xF0 <=? b) && (b <=? 0xF4) then
    ([], {| dec_cp := b mod 0x8; dec_needed := 3;
            dec_lower := if b =? 0xF0 then 0x90 else 0x80;
            dec_upper := if b =? 0xF4 then 0x8F else 0xBF |})
  else ([0xFFFD], dec_init).

Definition dec_step (d : decoder) (b : N) : list N * decoder :=
  match dec_needed d with
  | O => dec_first b
  | S n =>
      if (dec_lower d <=? b) && (b <=? dec_upper d) then
        let cp := dec_cp d * 0x40 + b mod 0x40 in
        match n with
        | O => ([cp], dec_init)
        | S _ => ([], {| dec_cp := cp; dec_needed := n;
                         dec_lower := 0x80; dec_upper := 0xBF |})
        end
      else
        let '(out, d') := dec_first b in (0xFFFD :: out, d')
  end.

Fixpoint utf8_decode_from (d : decoder) (bytes : list N) : list N :=
  match bytes with
  | [] => match dec_needed d with O => [] | S _ => [0xFFFD] end
  | b :: rest =>
      let '(out, d') := dec_step d b in out ++ utf8_decode_from d' rest
  end.

Definition utf8_decode (bytes : list N) : list N :=
  utf8_decode_from dec_init bytes.

(** The bytes a string is turned into before it is percent-encoded or
    parsed, and the string a byte sequence is decoded to. *)
Definition utf8_bytes (s : jsstring) : list N := utf8_encode (to_usv s).
Definition utf8_string (bytes : list N) : jsstring := of_usv (utf8_decode bytes).

(** What a string becomes when it is encoded to UTF-8 and decoded again:
    itself, unless it holds a lone surrogate. *)
Definition scrub (s : jsstring) : jsstring := utf8_string (utf8_bytes s).

(** Well-formed UTF-16: 16-bit code units, every surrogate paired. *)
Fixpoint well_formed (s : jsstring) : bool :=
  match s with
  | [] => true
  | u :: rest =>
      if is_lead u then
        match rest with
        | v :: rest' => is_trail v && well_formed rest'
        | [] => false
        end
      else (u <? 0x10000) && negb (is_trail u) && well_formed rest
  end.

End JsString.
Import JsString.

(** ** application/x-www-form-urlencoded and [URLSearchParams] *)

Module FormUrlencoded.

Definition hex_digit (d : N) : N := if d <? 10 then 48 + d else 55 + d.

Definition hex_value (u : N) : option N :=
  if (48 <=? u) && (u <=? 57) then Some (u - 48)
  else if (65 <=? u) && (u <=? 70) then Some (u - 55)
  else if (97 <=? u) && (u <=? 102) then Some (u - 87)
  else None.

Definition is_alnum (b : N) : bool :=
  ((48 <=? b) && (b <=? 57)) || ((65 <=? b) && (b <=? 90))
  || ((97 <=? b) && (b <=? 122)).

(** Bytes outside the application/x-www-form-urlencoded percent-encode set:
    ASCII alphanumerics and the four characters * - . _ *)
Definition urlencoded_safe (b : N) : bool :=
  is_alnum b || (b =? 42) || (b =? 45) || (b =? 46) || (b =? 95).

Definition percent_encode_byte (b : N) : list N :=
  [37; hex_digit (b / 16); hex_digit (b mod 16)].

(** Percent-encode after encoding, with space as plus. *)
Definition urlencoded_byte (b : N) : list N :=
  if urlencoded_safe b then [b]
  else if b =? 32 then [43]
  else percent_encode_byte b.

Definition urlencoded (s : jsstring) : jsstring :=
  flat_map urlencoded_byte (utf8_bytes s).

Definition urlencoded_pair (p : jsstring * jsstring) : jsstring :=
  urlencoded (fst p) ++ [61] ++ urlencoded (snd p).

(** The serializer: [name=value] tuples joined by [&]. *)
Definition serialize (l : list (jsstring * jsstring)) : jsstring :=
  join [38] (map urlencoded_pair l).

(** Percent-decoding of a byte sequence: [%] followed by two hexadecimal
    digits is one byte, any other byte stands for itself. *)
Fixpoint percent_decode (l : list N) : list N :=
  match l with
  | [] => []
  | b :: rest =>
      if b =? 37 then
        match rest with
        | h :: lo :: rest' =>
            match hex_value h, hex_value lo with
            | Some x, Some y => (16 * x + y) :: percent_decode rest'
            | _, _ => b :: percent_decode rest
            end
        | _ => b :: percent_decode rest
        end
      else b :: percent_decode rest
  end.

Definition plus_to_space (l : list N) : list N :=
  map (fun b => if b =? 43 then 32 else b) l.

(** Strictly split on a separator byte. *)
Fixpoint split_on (sep : N) (l : list N) : list (list N) :=
  match l with
  | [] => [[]]
  | b :: rest =>
      if b =? sep then [] :: split_on sep rest
      else match split_on sep rest with
           | [] => [[b]]
           | h :: t => (b :: h) :: t
           end
  end.

(** The part before the first separator and, when there is one, the part
    after it. *)
Fixpoint break_at (sep : N) (l : list N) : list N * list N :=
  match l with
  | [] => ([], [])
  | b :: rest =>
      if b =? sep then ([], rest)
      else let '(n, v) := break_at sep rest in (b :: n, v)
  end.

Definition decode_component (bytes : list N) : jsstring :=
  utf8_string (percent_decode (plus_to_space bytes)).

Definition parse_sequence (seq : list N) : list (jsstring * jsstring) :=
  match seq with
  | [] => []
  | _ => let '(n, v) := break_at 61 seq in
         [(decode_component n, decode_component v)]
  end.

(** The parser, on the UTF-8 bytes of its input. *)
Definition parse (s : jsstring) : list (jsstring * jsstring) :=
  flat_map parse_sequence (split_on 38 (utf8_bytes s)).

(** [new URLSearchParams(init)] for a string [init]: one leading [?] is
    dropped, the rest is parsed.  The object is its list of name-value
    pairs. *)
Definition URLSearchParams := list (jsstring * jsstring).

Definition new_URLSearchParams (init : jsstring) : URLSearchParams :=
  match init with
  | u :: rest => if u =? 63 then parse rest else parse init
  | [] => parse init
  end.

(** [params.set(name, value)]: the first pair named [name] takes the value
    and the later ones are removed; without such a pair one is appended. *)
Fixpoint params_set (ps : URLSearchParams) (name value : jsstring)
  : URLSearchParams :=
  match ps with
  | [] => [(name, value)]
  | (n, v) :: rest =>
      if JsString.eqb n name
      then (n, value) :: filter (fun p => negb (JsString.eqb (fst p) name)) rest
      else (n, v) :: params_set rest name value
  end.

(** [params.toString()]. *)
Definition params_toString (ps : URLSearchParams) : jsstring := serialize ps.

End FormUrlencoded.
Import FormUrlencoded.

(** ** JavaScript values and objects *)

Module Js.

Local Open Scope Z_scope.

(** The values a search-parameter object holds.  A number is kept as the
    string [Number.prototype.toString] returns for it: [20], [0.5],
    [1e+21], [-Infinity], [NaN].  That string tells any two numbers apart
    but the two zeros, which both read [0] and which the operations used
    here do not tell apart either. *)
Inductive JsValue : Type :=
| JUndefined
| JString (s : jsstring)
| JNumber (text : jsstring)
| JBoolean (b : bool).

(** [value.toString()]; never called on [undefined]. *)
Definition toString (v : JsValue) : jsstring :=
  match v with
  | JUndefined => js "undefined"
  | JString s => s
  | JNumber text => text
  | JBoolean true => js "true"
  | JBoolean false => js "false"
  end.

Section Objects.

Variable V : Type.

(** An object is its own properties in creation order.  (JavaScript lists
    array-index names such as [0] first; the order kept here is that of
    the other names, which are the ones the code modelled here writes.) *)
Definition JsObject := list (jsstring * V).

Fixpoint obj_get (o : JsObject) (k : jsstring) : option V :=
  match o with
  | [] => None
  | (k', v) :: rest => if JsString.eqb k' k then Some v else obj_get rest k
  end.

(** [k in o], for a key that [Object.prototype] does not define. *)
Definition obj_has (o : JsObject) (k : jsstring) : bool :=
  match obj_get o k with Some _ => true | None => false end.

(** Defining a property: an existing key keeps its place and takes the new
    value, a new key goes last. *)
Fixpoint obj_set (o : JsObject) (k : jsstring) (v : V) : JsObject :=
  match o with
  | [] => [(k, v)]
  | (k', v') :: rest =>
      if JsString.eqb k' k then (k', v) :: rest
      else (k', v') :: obj_set rest k v
  end.

(** [{...o, ...src}]: the properties of [src] are defined on [o] in order. *)
Definition obj_spread (o src : JsObject) : JsObject :=
  fold_left (fun acc kv => obj_set acc (fst kv) (snd kv)) src o.

(** [Object.fromEntries(entries)]. *)
Definition Object_fromEntries (entries : list (jsstring * V)) : JsObject :=
  obj_spread [] entries.

Definition obj_keys (o : JsObject) : list jsstring := map fst o.

End Objects.

(** JSON values, as [res.json()] yields them. *)
#[local] Unset Elimination Schemes.
Inductive Json : Type :=
| JsonNull
| JsonBool (b : bool)
| JsonNumber (n : Z)
| JsonString (s : jsstring)
| JsonArray (items : list Json)
| JsonObject (fields : list (jsstring * Json)).
#[local] Set Elimination Schemes.

End Js.
Import Js.

(** ** [URL], [fetch] and promises *)

Module Web.

Local Open Scope Z_scope.

(** A [URL] object: the URL it was parsed from, and its query component,
    which the [search] setter replaces.  The endpoint constants of the
    library are absolute URLs without query or fragment. *)
Record URL : Type := {
  url_base : jsstring;
  url_query : option jsstring
}.

Definition new_URL (s : jsstring) : URL :=
  {| url_base := s; url_query := None |}.

(** The query percent-encode set of a special scheme, applied to the UTF-8
    bytes of the input. *)
Definition query_encode_byte (b : N) : list N :=
  if ((b <=? 0x20) || (0x7E <? b) || (b =? 0x22) || (b =? 0x23)
      || (b =? 0x3C) || (b =? 0x3E) || (b =? 0x27))%N
  then percent_encode_byte b else [b].

Definition is_tab_or_newline (u : N) : bool :=
  ((u =? 9) || (u =? 10) || (u =? 13))%N.

(** [url.search = value]: the empty string removes the query; otherwise one
    leading [?] is dropped, tabs and newlines are removed, and the rest is
    percent-encoded as a query. *)
Definition set_search (url : URL) (value : jsstring) : URL :=
  match value with
  | [] => {| url_base := url_base url; url_query := None |}
  | u :: rest =>
      let input := if (u =? 63)%N then rest else value in
      let input := filter (fun c => negb (is_tab_or_newline c)) input in
      {| url_base := url_base url;
         url_query := Some (flat_map query_encode_byte (utf8_bytes input)) |}
  end.

(** [url.search], [url.href]. *)
Definition url_search (url : URL) : jsstring :=
  match url_query url with
  | None | Some [] => []
  | Some q => 63%N :: q
  end.

Definition url_href (url : URL) : jsstring :=
  match url_query url with
  | None => url_base url
  | Some q => url_base url ++ 63%N :: q
  end.

(** [url.searchParams]. *)
Definition url_searchParams (url : URL) : URLSearchParams :=
  match url_query url with
  | None => []
  | Some q => parse q
  end.

(** The request [fetch(url, init)] sends. *)
Record Request : Type := {
  req_url : URL;
  req_method : jsstring;
  req_headers : list (jsstring * jsstring);
  req_body : option jsstring
}.

(** A response: its status and what [res.json()] yields, [None] when the
    body is not JSON and [res.json()] rejects. *)
Record Response : Type := {
  res_status : Z;
  res_json : option Json
}.

(** [res.ok]: the status is in the range 200-299. *)
Definition res_ok (res : Response) : bool :=
  (200 <=? res_status res) && (res_status res <=? 299).

Inductive Exn : Type :=
| SpotifyAuthError (body : Json) (status : Z)
| SyntaxError                      (* [res.json()] on a body that is not JSON *)
| NetworkError                     (* [fetch] rejected *)
| Error (message : jsstring).

Inductive FetchOutcome : Type :=
| Responded (res : Response)
| Failed.

(** An [async] computation: it resolves, rejects, or awaits a [fetch]. *)
Inductive Async (A : Type) : Type :=
| Resolve (a : A)
| Reject (e : Exn)
| AwaitFetch (req : Request) (k : FetchOutcome -> Async A).

Arguments Resolve {A} a.
Arguments Reject {A} e.
Arguments AwaitFetch {A} req k.

Fixpoint bind {A B} (m : Async A) (f : A -> Async B) : Async B :=
  match m with
  | Resolve a => f a
  | Reject e => Reject e
  | AwaitFetch req k => AwaitFetch req (fun o => bind (k o) f)
  end.

(** [await fetch(url, init)]. *)
Definition fetch (req : Request) : Async Response :=
  AwaitFetch req (fun o =>
    match o with
    | Responded res => Resolve res
    | Failed => Reject NetworkError
    end).

(** [await res.json()]. *)
Definition json (res : Response) : Async Json :=
  match res_json res with
  | Some j => Resolve j
  | None => Reject SyntaxError
  end.

(** Running a computation on a network: the requests sent, in order, and
    the way the promise settles. *)
Definition Network := Request -> FetchOutcome.

Fixpoint run {A} (net : Network) (m : Async A) : list Request * (Exn + A) :=
  match m with
  | Resolve a => ([], inr a)
  | Reject e => ([], inl e)
  | AwaitFetch req k =>
      let '(sent, r) := run net (k (net req)) in (req :: sent, r)
  end.

Definition requests {A} (net : Network) (m : Async A) : list Request :=
  fst (run net m).

(** The same on a network with a state of its own, which may answer the
    same request differently from one moment to the next. *)
Definition Service (W : Type) := W -> Request -> FetchOutcome * W.

Fixpoint run_in {A W} (net : Service W) (m : Async A) (w : W)
  : list Request * (Exn + A) * W :=
  match m with
  | Resolve a => ([], inr a, w)
  | Reject e => ([], inl e, w)
  | AwaitFetch req k =>
      let '(o, w') := net w req in
      let '(sent, r, w'') := run_in net (k o) w' in
      (req :: sent, r, w'')
  end.

Definition settles {A} (net : Network) (m : Async A) : Exn + A :=
  snd (run net m).

End Web.
Import Web.

Notation "'await' x '<-' m ';;' k" := (bind m (fun x => k))
  (at level 61, x name, m at next level, right associativity).

(** ** The helpers of [shared] and [auth/general] *)

Module General.

(** Modelled from the spec: [toQueryString] and [objectToSearchParams] of
    the [shared] module are not among the sources.  QueryCodec.encode keeps
    the present entries of the mapping in insertion order, skips the
    undefined ones, encodes no parameter more than once, and writes each
    entry url-encoded, joined with [&]. *)
Definition objectToSearchParams (obj : JsObject JsValue) : URLSearchParams :=
  fold_left
    (fun ps kv =>
       match snd kv with
       | JUndefined => ps
       | v => params_set ps (fst kv) (toString v)
       end)
    obj [].

(** Modelled from the spec: [toQueryString], the same encoding as a
    string. *)
Definition toQueryString (obj : JsObject JsValue) : jsstring :=
  params_toString (objectToSearchParams obj).

(** QueryCodec.decode, as [parseCallbackData] performs it:
    [Object.fromEntries(new URLSearchParams(s))]. *)
Definition decode (s : jsstring) : JsObject jsstring :=
  Object_fromEntries (new_URLSearchParams s).

(** Modelled from the spec: the base64 of BasicAuthEncoder, with the
    standard alphabet and padding. *)
Definition base64_char (i : N) : N :=
  if i <? 26 then 65 + i
  else if i <? 52 then 97 + (i - 26)
  else if i <? 62 then 48 + (i - 52)
  else if i =? 62 then 43 else 47.

Fixpoint base64 (bytes : list N) : jsstring :=
  match bytes with
  | [] => []
  | [a] => [base64_char (a / 4); base64_char (a mod 4 * 16); 61; 61]
  | [a; b] =>
      [base64_char (a / 4); base64_char (a mod 4 * 16 + b / 16);
       base64_char (b mod 16 * 4); 61]
  | a :: b :: c :: rest =>
      base64_char (a / 4) :: base64_char (a mod 4 * 16 + b / 16)
      :: base64_char (b mod 16 * 4 + c / 64) :: base64_char (c mod 64)
      :: base64 rest
  end.

(** Modelled from the spec: [getBasicAuthHeader] of [auth/general] is not
    among the sources.  BasicAuthEncoder yields
    ["Basic " + base64(client_id + ":" + client_secret)], the colon not
    escaped. *)
Definition getBasicAuthHeader (client_id client_secret : jsstring) : jsstring :=
  js "Basic " ++ base64 (utf8_bytes (client_id ++ js ":" ++ client_secret)).

(** Modelled from the spec: the constant [URL_ENCODED] of [auth/general] is
    not among the sources; the token endpoint is sent
    [Content-Type: application/x-www-form-urlencoded]. *)
Definition URL_ENCODED : jsstring := js "application/x-www-form-urlencoded".

(** Modelled from the spec: [SpotifyAuthError.create] of [auth/general] is
    not among the sources.  The error carries the parsed error body and the
    HTTP status code; the body is read with [res.json()]. *)
Definition SpotifyAuthError_create (res : Response) : Async Exn :=
  await body <- json res ;;
  Resolve (SpotifyAuthError body (res_status res)).

End General.
Import General.

(** ** The authorization flows *)

(** Scope identifiers ([AuthScope]) are strings. *)
Definition AuthScope := jsstring.

(** [scopes?.join(" ")]. *)
Definition join_scopes (scopes : option (list AuthScope)) : JsValue :=
  match scopes with
  | Some l => JString (join (js " ") l)
  | None => JUndefined
  end.

(** *** [src/auth/auth_code.ts], class [AuthCode] *)

Module AuthCode.

Record Credentials : Type := {
  client_id : jsstring;
  client_secret : jsstring
}.

(** The argument of [getAuthURL] as the parameter [{ scopes, ...opts }]
    takes it apart: the value of its property [scopes], and [opts], its
    other own properties in the order the caller gave them.  The type
    [GetAuthURLOpts] declares [redirect_uri], [state] and [show_dialog];
    an object with further properties is a value of that type too, and
    all of them are in [opts]. *)
Record GetAuthURLOpts : Type := {
  scopes : option (list AuthScope);
  opts : JsObject JsValue
}.

(** An instance of the class. *)
Record AuthCode : Type := {
  creds : Credentials;
  basicAuthHeader : jsstring
}.

Definition new_AuthCode (c : Credentials) : AuthCode :=
  {| creds := c;
     basicAuthHeader := getBasicAuthHeader (client_id c) (client_secret c) |}.

(** The values of the options object of [createAuthProvider]: a refresh
    function, or a setting of a kind that [auth/general] declares. *)
Inductive ProviderOption (X : Type) : Type :=
| Refresher (f : unit -> Async Json)
| Setting (x : X).

Arguments Refresher {X} f.
Arguments Setting {X} x.

Section Endpoints.

(** The constant [SPOTIFY_AUTH] of [auth/general], the prefix of the
    endpoints of the accounts service. *)
Variable SPOTIFY_AUTH : jsstring.

Definition getAuthURL (this : AuthCode) (o : GetAuthURLOpts) : URL :=
  let url := new_URL (SPOTIFY_AUTH ++ js "authorize") in
  set_search url
    (toQueryString
       (obj_spread
          (obj_set
             (obj_set
                (obj_set [] (js "response_type") (JString (js "code")))
                (js "scope") (join_scopes (scopes o)))
             (js "client_id") (JString (client_id (creds this))))
          (opts o))).

(** The request of [getGrantData] and of [refresh], which differ in the
    parameters only: the URL of the token endpoint with the parameters as
    its query, the method and the two headers; no body is given. *)
Definition token_request (this : AuthCode) (params : JsObject JsValue)
  : Request :=
  {| req_url := set_search (new_URL (SPOTIFY_AUTH ++ js "api/token"))
                  (toQueryString params);
     req_method := js "POST";
     req_headers := [(js "Authorization", basicAuthHeader this);
                     (js "Content-Type", URL_ENCODED)];
     req_body := None |}.

Definition getGrantData (this : AuthCode) (redirect_uri code : jsstring)
  : Async Json :=
  let params :=
    obj_set
      (obj_set (obj_set [] (js "code") (JString code))
         (js "redirect_uri") (JString redirect_uri))
      (js "grant_type") (JString (js "authorization_code")) in
  await res <- fetch (token_request this params) ;;
  if negb (res_ok res)
  then await e <- SpotifyAuthError_create res ;; Reject e
  else await data <- json res ;; Resolve data.

Definition refresh (this : AuthCode) (refresh_token : jsstring) : Async Json :=
  let params :=
    obj_set (obj_set [] (js "refresh_token") (JString refresh_token))
      (js "grant_type") (JString (js "refresh_token")) in
  await res <- fetch (token_request this params) ;;
  if negb (res_ok res)
  then await e <- SpotifyAuthError_create res ;; Reject e
  else await data <- json res ;; Resolve data.

(** [createAuthProvider(refresh_token, opts)]: [general] is the
    [createAuthProvider] of [auth/general]; it is given the object
    [{ refresher: ..., ...opts }], in which the properties of [opts] are
    defined after the refresher.  An omitted [opts] is the empty object. *)
Definition createAuthProvider {X P : Type}
    (general : JsObject (ProviderOption X) -> P)
    (this : AuthCode) (refresh_token : jsstring)
    (opts : JsObject (ProviderOption X)) : P :=
  general
    (obj_spread
       (obj_set [] (js "refresher")
          (Refresher (fun _ => refresh this refresh_token)))
       opts).

End Endpoints.

End AuthCode.

(** *** [auth/implicit_grant.ts] *)

Module ImplicitGrant.

(** The argument of [getRedirectURL], taken apart as that of
    [AuthCode.getAuthURL] is: [scopes], and the other own properties in the
    caller's order, [client_id] and [redirect_uri] among them. *)
Record GetRedirectURLOpts : Type := {
  scopes : option (list AuthScope);
  opts : JsObject JsValue
}.

Section Endpoints.

(** The constant [AUTHORIZE_URL] of [auth/general]. *)
Variable AUTHORIZE_URL : jsstring.

Definition getRedirectURL (o : GetRedirectURLOpts) : URL :=
  let url := new_URL AUTHORIZE_URL in
  set_search url
    (params_toString
       (objectToSearchParams
          (obj_spread
             (obj_set
                (obj_set [] (js "response_type") (JString (js "token")))
                (js "scope") (join_scopes (scopes o)))
             (opts o)))).

End Endpoints.

(** [CallbackData]: the decoded parameters, an error shape when they hold
    the key [error]. *)
Definition CallbackData := JsObject jsstring.

Definition parseCallbackData (hash : jsstring) : Exn + CallbackData :=
  let params := Object_fromEntries (new_URLSearchParams (substring 1 hash)) in
  if obj_has params (js "error") then inr params
  else if obj_has params (js "access_token")
          && obj_has params (js "expires_in")
          && obj_has params (js "token_type")
  then inr params
  else inl (Error (js "Invalid params")).

End ImplicitGrant.

(** ** The auth provider *)

Module Provider.

Local Open Scope Z_scope.

(** Modelled from the spec: the types of [auth/general] are not among the
    sources.  A TokenPair is what the token endpoint returns, a CachedToken
    what the provider keeps of it. *)
Record TokenPair : Type := {
  access_token : jsstring;
  token_type : jsstring;
  scope : jsstring;
  expires_in : Z;
  refresh_token : option jsstring
}.

Record CachedToken : Type := {
  cached_token : jsstring;
  expires_at : Z
}.

(** The provider is Empty ([None]) or holds a cached token, which is Valid
    or Expired according to the clock. *)
Definition ProviderState := option CachedToken.

(** Modelled from the spec: what a call of the provider does.  It returns,
    invokes the refresh function, or reads the clock. *)
Inductive Task (A : Type) : Type :=
| Done (a : A)
| InvokeRefresher (k : Exn + TokenPair -> Task A)
| ReadClock (k : Z -> Task A).

Arguments Done {A} a.
Arguments InvokeRefresher {A} k.
Arguments ReadClock {A} k.

(** Modelled from the spec: the transition out of Empty or Expired. *)
Definition refresh_and_cache (st : ProviderState)
  : Task ((Exn + jsstring) * ProviderState) :=
  InvokeRefresher (fun r =>
    match r with
    | inl e => Done (inl e, st)
    | inr t =>
        ReadClock (fun now =>
          Done (inr (access_token t),
                Some {| cached_token := access_token t;
                        expires_at := now + expires_in t |}))
    end).

(** Modelled from the spec: [createAuthProvider] of [auth/general] is not
    among the sources.  An Empty provider invokes the refresh function,
    caches the token with [expires_at = now + expires_in], taken when the
    token is received, and returns the access token; a failed refresh
    leaves the state as it was and is propagated.  A provider with a cached
    token compares the current time to [expires_at]: a token not yet
    expired is returned without a call, an expired one is refreshed like an
    Empty provider does.  There is no safety margin. *)
Definition getAccessToken (st : ProviderState)
  : Task ((Exn + jsstring) * ProviderState) :=
  match st with
  | None => refresh_and_cache st
  | Some c =>
      ReadClock (fun now =>
        if expires_at c <=? now then refresh_and_cache st
        else Done (inr (cached_token c), st))
  end.

(** The surroundings of a provider: a clock, and a refresh function whose
    calls change the world. *)
Record World (W : Type) : Type := {
  now : W -> Z;
  call_refresher : W -> (Exn + TokenPair) * W
}.

(** Running a task: its value, the world it leaves, and the number of
    refresh-function invocations. *)
Fixpoint run_task {A W} (env : World W) (t : Task A) (w : W) : A * W * nat :=
  match t with
  | Done a => (a, w, O)
  | InvokeRefresher k =>
      let '(r, w') := call_refresher env w in
      let '(a, w'', n) := run_task env (k r) w' in
      (a, w'', S n)
  | ReadClock k => run_task env (k (now env w)) w
  end.

Section Calls.

Context {W : Type} (env : World W).

Definition call (st : ProviderState) (w : W) :=
  run_task env (getAccessToken st) w.

Definition result (st : ProviderState) (w : W) : Exn + jsstring :=
  fst (fst (fst (call st w))).

Definition next_state (st : ProviderState) (w : W) : ProviderState :=
  snd (fst (fst (call st w))).

Definition world_after (st : ProviderState) (w : W) : W :=
  snd (fst (call st w)).

Definition invocations (st : ProviderState) (w : W) : nat :=
  snd (call st w).

End Calls.

(** Empty, or the cached token's expiry time is not after [t]. *)
Definition needs_refresh (st : ProviderState) (t : Z) : bool :=
  match st with
  | None => true
  | Some c => expires_at c <=? t
  end.

End Provider.

(** ** The bundling script ([unnamed/part_000]) *)

Module BuildScript.

(** [s.endsWith(t)]. *)
Definition endsWith (s t : jsstring) : bool :=
  (List.length t <=? List.length s)%nat
  && JsString.eqb (skipn (List.length s - List.length t) s) t.

(** [s.substring(start, stop)]: the arguments are swapped when they come
    in the wrong order. *)
Definition substring_range (start stop : nat) (s : jsstring) : jsstring :=
  firstn (Nat.max start stop - Nat.min start stop)
    (skipn (Nat.min start stop) s).

(** The [load] hook of the bundler: a specifier that ends in [.deno.ts] is
    loaded from the cache under the name that ends in [.web.ts]. *)
Definition load {R : Type} (cache_load : jsstring -> R) (specifier : jsstring)
  : R :=
  let specifier :=
    if endsWith specifier (js ".deno.ts") then
      let baseLength :=
        (List.length specifier - List.length (js ".deno.ts"))%nat in
      substring_range 0 baseLength specifier ++ js ".web.ts"
    else specifier in
  cache_load specifier.

(** The line terminators, which [.] does not match. *)
Definition line_terminator (u : code_unit) : bool :=
  (u =? 10) || (u =? 13) || (u =? 0x2028) || (u =? 0x2029).

(** What is left of [s] after the prefix [p], if [s] starts with [p]. *)
Fixpoint after_prefix (p s : jsstring) : option jsstring :=
  match p, s with
  | [], _ => Some s
  | _ :: _, [] => None
  | a :: p', b :: s' => if a =? b then after_prefix p' s' else None
  end.

(** [.*\n] at the start of [s]: the characters up to the first line
    terminator, which has to be a line feed; what follows it is left. *)
Fixpoint after_line (s : jsstring) : option jsstring :=
  match s with
  | [] => None
  | u :: rest =>
      if u =? 10 then Some rest
      else if line_terminator u then None
      else after_line rest
  end.

Definition source_map_comment : jsstring := js "//# sourceMappingURL=".

(** The regular expression at the start of [s]. *)
Definition match_comment (s : jsstring) : option jsstring :=
  match after_prefix source_map_comment s with
  | Some rest => after_line rest
  | None => None
  end.

(** [bundledCode.replace(/\/\/# sourceMappingURL=.*\n/, "")]: the leftmost
    match is removed, no other. *)
Fixpoint remove_source_map (bundledCode : jsstring) : jsstring :=
  match bundledCode with
  | [] => []
  | u :: rest =>
      match match_comment bundledCode with
      | Some tail => tail
      | None => u :: remove_source_map rest
      end
  end.

End BuildScript.

(** ** The callback route of the example ([examples/next-ssr]) *)

Module Callback.

Local Open Scope Z_scope.

(** What the handler reads of the request. *)
Record NextApiRequest : Type := {
  url : option jsstring;
  host : option jsstring        (* [req.headers.host] *)
}.

(** [env] of [examples/next-ssr/spotify.ts]. *)
Record SpotifyEnv : Type := {
  client_id : jsstring;
  client_secret : jsstring;
  redirect_uri : jsstring
}.

Definition env_object (e : SpotifyEnv) : JsObject JsValue :=
  [(js "client_id", JString (client_id e));
   (js "client_secret", JString (client_secret e));
   (js "redirect_uri", JString (redirect_uri e))].

(** The functions of other packages the handler calls: the URL parser, the
    two functions of the auth package and the cookie reader.  (A cookie
    value [null] would count as [undefined] does: it is falsy and no
    string.) *)
Record Platform : Type := {
  searchParams : jsstring -> jsstring -> Exn + URLSearchParams;
                                   (* [new URL(input, base).searchParams] *)
  parseCallbackData : URLSearchParams -> Exn + JsObject JsValue;
  getCookie : jsstring -> JsValue;
  getGrantData : JsObject JsValue -> Exn + JsObject JsValue
}.

Record CookieOptions : Type := {
  httpOnly : bool;
  sameSite : option jsstring;
  path : option jsstring;
  maxAge : option JsValue
}.

Inductive Body : Type :=
| Text (s : jsstring)
| Value (v : JsValue)
| StringOf (e : Exn).             (* [String(error)] *)

(** What the handler does to the response and the cookies, and its call of
    the token exchange. *)
Inductive Action : Type :=
| Send (status : Z) (body : Body)  (* [res.status(status).send(body)] *)
| Redirect (to : jsstring)
| DeleteCookie (name : jsstring)
| SetCookie (name : jsstring) (value : JsValue) (options : CookieOptions)
| Exchange (arg : JsObject JsValue).

(** [o.k]. *)
Definition property (o : JsObject JsValue) (k : string) : JsValue :=
  match obj_get o (js k) with
  | Some v => v
  | None => JUndefined
  end.

(** [typeof v === "string"], [!!v] and [a === b]. *)
Definition is_string (v : JsValue) : bool :=
  match v with JString _ => true | _ => false end.

Definition truthy (v : JsValue) : bool :=
  match v with
  | JUndefined => false
  | JString s => negb (JsString.eqb s [])
  | JNumber text =>
      negb (JsString.eqb text (js "0") || JsString.eqb text (js "NaN"))
  | JBoolean b => b
  end.

Definition strict_eq (a b : JsValue) : bool :=
  match a, b with
  | JUndefined, JUndefined => true
  | JString x, JString y => JsString.eqb x y
  | JNumber x, JNumber y =>
      JsString.eqb x y && negb (JsString.eqb x (js "NaN"))
  | JBoolean x, JBoolean y => Bool.eqb x y
  | _, _ => false
  end.

(** [`http://${host}`]. *)
Definition base_of (h : option jsstring) : jsstring :=
  js "http://" ++ match h with Some x => x | None => js "undefined" end.

Section Handler.

(** The names of the cookies, constants of the example. *)
Variables SPOTIFY_ACCESS_TOKEN SPOTIFY_REFRESH_TOKEN SPOTIFY_STATE : jsstring.
Variable env : SpotifyEnv.
Variable platform : Platform.

(** The default export of [pages/api/callback.ts]: the actions in order,
    and whether the handler returns or throws. *)
Definition handler (req : NextApiRequest) : list Action * (Exn + unit) :=
  match url req with
  | None | Some [] =>
      ([Send 400 (Text (js "req.url is undefined"))], inr tt)
  | Some u =>
      match searchParams platform u (base_of (host req)) with
      | inl e => ([], inl e)
      | inr params =>
          match parseCallbackData platform params with
          | inl e => ([], inl e)
          | inr data =>
              if obj_has data (js "error")
              then ([Send 400 (Value (property data "error"))], inr tt)
              else
                let storedState := getCookie platform SPOTIFY_STATE in
                if negb (is_string (property data "state"))
                   || negb (truthy storedState)
                   || negb (strict_eq (property data "state") storedState)
                then ([Send 400
                         (Text (js "Unable to verify request with state."))],
                      inr tt)
                else
                  let arg :=
                    obj_spread
                      (obj_set [] (js "code") (property data "code"))
                      (env_object env) in
                  match getGrantData platform arg with
                  | inr tokens =>
                      ([DeleteCookie SPOTIFY_STATE;
                        Exchange arg;
                        SetCookie SPOTIFY_REFRESH_TOKEN
                          (property tokens "refresh_token")
                          {| httpOnly := true;
                             sameSite := Some (js "strict");
                             path := Some (js "/api/refresh");
                             maxAge := None |};
                        SetCookie SPOTIFY_ACCESS_TOKEN
                          (property tokens "access_token")
                          {| httpOnly := false;
                             sameSite := Some (js "strict");
                             path := None;
                             maxAge := Some (property tokens "expires_in") |};
                        Redirect (js "/")],
                       inr tt)
                  | inl e =>
                      ([DeleteCookie SPOTIFY_STATE;
                        Exchange arg;
                        Send 400 (StringOf e)],
                       inr tt)
                  end
          end
      end
  end.

End Handler.

End Callback.

(** * Properties *)

(** ** Strings *)

Module StringFacts.

Lemma eqb_eq (a b : jsstring) : JsString.eqb a b = true <-> a = b.
Proof.
  unfold JsString.eqb. destruct (list_eq_dec N.eq_dec a b); split; congruence.
Qed.

Lemma eqb_refl (a : jsstring) : JsString.eqb a a = true.
Proof. now apply eqb_eq. Qed.

Lemma eqb_neq (a b : jsstring) : JsString.eqb a b = false <-> a <> b.
Proof.
  unfold JsString.eqb. destruct (list_eq_dec N.eq_dec a b); split; congruence.
Qed.

End StringFacts.
Import StringFacts.

(** ** Transcoding lemmas *)

Module Transcode.

Ltac nlia := zify; Z.to_euclidean_division_equations; lia.

(** Decide the comparisons met while a definition is unfolded. *)
Ltac tests :=
  repeat match goal with
  | |- context [N.leb ?a ?b] =>
      destruct (N.leb_spec a b); try (exfalso; lia)
  | |- context [N.ltb ?a ?b] =>
      destruct (N.ltb_spec a b); try (exfalso; lia)
  | |- context [N.eqb ?a ?b] =>
      destruct (N.eqb_spec a b); try (exfalso; lia)
  end; cbn [andb orb negb].

Definition scalar (c : N) : Prop :=
  c < 0xD800 \/ (0xE000 <= c /\ c < 0x110000).

Lemma decode_1 b rest :
  b <= 0x7F ->
  utf8_decode_from dec_init (b :: rest) = b :: utf8_decode_from dec_init rest.
Proof.
  intros Hb. cbn. unfold dec_first. tests. reflexivity.
Qed.

Lemma decode_2 b1 b2 rest :
  0xC2 <= b1 <= 0xDF -> 0x80 <= b2 <= 0xBF ->
  utf8_decode_from dec_init (b1 :: b2 :: rest) =
  (b1 mod 0x20 * 0x40 + b2 mod 0x40) :: utf8_decode_from dec_init rest.
Proof.
  intros H1 H2. cbn. unfold dec_first. tests.
  cbn. unfold dec_step. cbn. tests. reflexivity.
Qed.

Lemma decode_3 b1 b2 b3 rest :
  0xE0 <= b1 <= 0xEF ->
  (if b1 =? 0xE0 then 0xA0 else 0x80) <= b2 ->
  b2 <= (if b1 =? 0xED then 0x9F else 0xBF) ->
  0x80 <= b3 <= 0xBF ->
  utf8_decode_from dec_init (b1 :: b2 :: b3 :: rest) =
  ((b1 mod 0x10 * 0x40 + b2 mod 0x40) * 0x40 + b3 mod 0x40)
    :: utf8_decode_from dec_init rest.
Proof.
  intros H1 H2 H3 H4. cbn. unfold dec_first.
  destruct (N.leb_spec b1 0x7F); [exfalso; lia|].
  destruct (N.leb_spec 0xC2 b1); [|exfalso; lia].
  destruct (N.leb_spec b1 0xDF); [exfalso; lia|].
  destruct (N.leb_spec 0xE0 b1); [|exfalso; lia].
  destruct (N.leb_spec b1 0xEF); [|exfalso; lia].
  cbn. unfold dec_step. cbn.
  destruct (N.leb_spec (if b1 =? 224 then 160 else 128) b2); [|exfalso; lia].
  destruct (N.leb_spec b2 (if b1 =? 237 then 159 else 191)); [|exfalso; lia].
  cbn.
  destruct (N.leb_spec 128 b3); [|exfalso; lia].
  destruct (N.leb_spec b3 191); [|exfalso; lia].
  reflexivity.
Qed.

Lemma decode_4 b1 b2 b3 b4 rest :
  0xF0 <= b1 <= 0xF4 ->
  (if b1 =? 0xF0 then 0x90 else 0x80) <= b2 ->
  b2 <= (if b1 =? 0xF4 then 0x8F else 0xBF) ->
  0x80 <= b3 <= 0xBF -> 0x80 <= b4 <= 0xBF ->
  utf8_decode_from dec_init (b1 :: b2 :: b3 :: b4 :: rest) =
  (((b1 mod 0x8 * 0x40 + b2 mod 0x40) * 0x40 + b3 mod 0x40) * 0x40
     + b4 mod 0x40) :: utf8_decode_from dec_init rest.
Proof.
  intros H1 H2 H3 H4 H5. cbn. unfold dec_first.
  destruct (N.leb_spec b1 0x7F); [exfalso; lia|].
  destruct (N.leb_spec 0xC2 b1); [|exfalso; lia].
  destruct (N.leb_spec b1 0xDF); [exfalso; lia|].
  destruct (N.leb_spec 0xE0 b1); [|exfalso; lia].
  destruct (N.leb_spec b1 0xEF); [exfalso; lia|].
  destruct (N.leb_spec 0xF0 b1); [|exfalso; lia].
  destruct (N.leb_spec b1 0xF4); [|exfalso; lia].
  cbn. unfold dec_step. cbn.
  destruct (N.leb_spec (if b1 =? 240 then 144 else 128) b2); [|exfalso; lia].
  destruct (N.leb_spec b2 (if b1 =? 244 then 143 else 191)); [|exfalso; lia].
  cbn.
  destruct (N.leb_spec 128 b3); [|exfalso; lia].
  destruct (N.leb_spec b3 191); [|exfalso; lia].
  cbn.
  destruct (N.leb_spec 128 b4); [|exfalso; lia].
  destruct (N.leb_spec b4 191); [|exfalso; lia].
  reflexivity.
Qed.

Lemma decode_scalar c rest :
  scalar c ->
  utf8_decode_from dec_init (utf8_of_scalar c ++ rest) =
  c :: utf8_decode_from dec_init rest.
Proof.
  intros Hc. unfold utf8_of_scalar.
  destruct (N.ltb_spec c 0x80).
  { cbn [app]. apply decode_1. lia. }
  destruct (N.ltb_spec c 0x800).
  { cbn [app]. rewrite decode_2 by nlia. f_equal. nlia. }
  destruct (N.ltb_spec c 0x10000).
  { cbn [app]. rewrite decode_3.
    - f_equal. nlia.
    - nlia.
    - destruct (N.eqb_spec (0xE0 + c / 0x1000) 0xE0); nlia.
    - destruct Hc as [Hc|Hc];
        destruct (N.eqb_spec (0xE0 + c / 0x1000) 0xED); nlia.
    - nlia. }
  cbn [app]. destruct Hc as [Hc|[_ Hc]]; [exfalso; lia|].
  rewrite decode_4.
  - f_equal.
    assert (E1 : (0xF0 + (c / 0x40000) mod 8) mod 8 = c / 0x40000) by nlia.
    assert (E2 : (0x80 + (c / 0x1000) mod 0x40) mod 0x40 = (c / 0x1000) mod 0x40)
      by nlia.
    assert (E3 : (0x80 + (c / 0x40) mod 0x40) mod 0x40 = (c / 0x40) mod 0x40)
      by nlia.
    assert (E4 : (0x80 + c mod 0x40) mod 0x40 = c mod 0x40) by nlia.
    rewrite E1, E2, E3, E4. clear E1 E2 E3 E4. nlia.
  - nlia.
  - destruct (N.eqb_spec (0xF0 + (c / 0x40000) mod 8) 0xF0); nlia.
  - destruct (N.eqb_spec (0xF0 + (c / 0x40000) mod 8) 0xF4); nlia.
  - nlia.
  - nlia.
Qed.

Lemma decode_encode cs :
  Forall scalar cs -> utf8_decode (utf8_encode cs) = cs.
Proof.
  unfold utf8_decode. induction 1 as [|c cs Hc _ IH]; [reflexivity|].
  cbn [utf8_encode flat_map]. rewrite decode_scalar by assumption.
  f_equal. exact IH.
Qed.

(** The scalar values of a well-formed string, and back. *)
Lemma well_formed_usv s :
  well_formed s = true -> Forall scalar (to_usv s) /\ of_usv (to_usv s) = s.
Proof.
  remember (List.length s) as n eqn:Hn.
  revert s Hn. induction n as [n IH] using lt_wf_ind. intros s Hn Hs.
  destruct s as [|u rest]; [split; [constructor|reflexivity]|].
  cbn [well_formed to_usv] in *. unfold is_lead, is_trail in *.
  destruct (N.leb_spec 0xD800 u); destruct (N.leb_spec u 0xDBFF);
    cbn [andb] in *.
  - destruct rest as [|v rest']; [discriminate|].
    destruct (N.leb_spec 0xDC00 v); destruct (N.leb_spec v 0xDFFF);
      cbn [andb] in *; try discriminate.
    destruct (IH (List.length rest')) with (s := rest') as [F E];
      [cbn in Hn; lia|reflexivity|assumption|].
    split.
    + constructor; [right; nlia|exact F].
    + cbn [of_usv flat_map]. fold (of_usv (to_usv rest')). rewrite E.
      unfold utf16_of_scalar.
      destruct (N.ltb_spec (0x10000 + (u - 0xD800) * 0x400 + (v - 0xDC00))
                  0x10000); [exfalso; lia|].
      cbn [app]. f_equal; [nlia|f_equal; nlia].
  - destruct (N.ltb_spec u 0x10000); cbn [andb] in Hs; [|discriminate].
    destruct (N.leb_spec 0xDC00 u); [|exfalso; lia].
    destruct (N.leb_spec u 0xDFFF); [discriminate|].
    cbn [andb negb] in *.
    destruct (IH (List.length rest)) with (s := rest) as [F E];
      [cbn in Hn; lia|reflexivity|assumption|].
    split.
    + constructor; [right; lia|exact F].
    + cbn [of_usv flat_map]. fold (of_usv (to_usv rest)). rewrite E.
      unfold utf16_of_scalar.
      destruct (N.ltb_spec u 0x10000); [reflexivity|exfalso; lia].
  - destruct (N.ltb_spec u 0x10000); cbn [andb] in Hs; [|discriminate].
    destruct (N.leb_spec 0xDC00 u); [exfalso; lia|].
    cbn [andb negb] in *.
    destruct (IH (List.length rest)) with (s := rest) as [F E];
      [cbn in Hn; lia|reflexivity|assumption|].
    split.
    + constructor; [left; lia|exact F].
    + cbn [of_usv flat_map]. fold (of_usv (to_usv rest)). rewrite E.
      unfold utf16_of_scalar.
      destruct (N.ltb_spec u 0x10000); [reflexivity|exfalso; lia].
  - exfalso; lia.
Qed.

(** A well-formed string survives the passage through UTF-8. *)
Lemma scrub_well_formed s : well_formed s = true -> scrub s = s.
Proof.
  intros Hs. destruct (well_formed_usv s Hs) as [F E].
  unfold scrub, utf8_string, utf8_bytes. now rewrite decode_encode.
Qed.

End Transcode.

(** ** The serializer and the parser are inverse *)

Module Codec.

Import Transcode.

(** The characters the serializer writes for a name or a value. *)
Definition urlencoded_char (u : N) : bool :=
  urlencoded_safe u || (u =? 43) || (u =? 37).

Lemma urlencoded_char_spec u :
  urlencoded_char u = true -> u < 128 /\ u <> 38 /\ u <> 61 /\ u <> 63.
Proof.
  unfold urlencoded_char, urlencoded_safe, is_alnum. tests; intros; lia.
Qed.

Lemma utf8_of_scalar_byte c : Forall (fun b => b < 256) (utf8_of_scalar c).
Proof.
  unfold utf8_of_scalar.
  destruct (N.ltb_spec c 0x80); [|destruct (N.ltb_spec c 0x800);
    [|destruct (N.ltb_spec c 0x10000)]];
    repeat constructor; nlia.
Qed.

Lemma utf8_bytes_byte s : Forall (fun b => b < 256) (utf8_bytes s).
Proof.
  unfold utf8_bytes, utf8_encode. induction (to_usv s) as [|c cs IH]; cbn.
  - constructor.
  - apply Forall_app. split; [apply utf8_of_scalar_byte|exact IH].
Qed.

Lemma ascii_utf8_bytes s : Forall (fun u => u < 128) s -> utf8_bytes s = s.
Proof.
  unfold utf8_bytes. induction 1 as [|u s Hu _ IH]; [reflexivity|].
  cbn [to_usv]. unfold is_lead, is_trail. tests.
  cbn [utf8_encode flat_map]. fold (utf8_encode (to_usv s)). rewrite IH.
  unfold utf8_of_scalar. tests. reflexivity.
Qed.

Lemma ascii_well_formed s :
  Forall (fun u => u < 128) s -> well_formed s = true.
Proof.
  induction 1 as [|u s Hu _ IH]; [reflexivity|].
  cbn [well_formed]. unfold is_lead, is_trail. tests. exact IH.
Qed.

Lemma hex_value_digit d : d < 16 -> hex_value (hex_digit d) = Some d.
Proof.
  intros Hd. unfold hex_value, hex_digit. tests; f_equal; lia.
Qed.

Lemma hex_digit_char d : d < 16 -> urlencoded_char (hex_digit d) = true.
Proof.
  intros Hd. unfold urlencoded_char, urlencoded_safe, is_alnum, hex_digit.
  tests; reflexivity.
Qed.

Lemma hex_digit_not_plus d : d < 16 -> (hex_digit d =? 43) = false.
Proof. intros Hd. unfold hex_digit. tests; reflexivity. Qed.

Lemma urlencoded_byte_chars b :
  b < 256 -> Forall (fun u => urlencoded_char u = true) (urlencoded_byte b).
Proof.
  intros Hb. unfold urlencoded_byte.
  destruct (urlencoded_safe b) eqn:Hs.
  - constructor; [|constructor]. unfold urlencoded_char. now rewrite Hs.
  - destruct (b =? 32); [repeat constructor|].
    unfold percent_encode_byte.
    constructor; [reflexivity|].
    constructor; [apply hex_digit_char; nlia|].
    constructor; [apply hex_digit_char; nlia|constructor].
Qed.

Lemma urlencoded_chars s :
  Forall (fun u => urlencoded_char u = true) (urlencoded s).
Proof.
  unfold urlencoded. pose proof (utf8_bytes_byte s) as H.
  induction H as [|b bs Hb _ IH]; cbn; [constructor|].
  apply Forall_app. split; [now apply urlencoded_byte_chars|exact IH].
Qed.

Lemma percent_decode_plain b rest :
  b <> 37 -> percent_decode (b :: rest) = b :: percent_decode rest.
Proof.
  intros Hb. cbn [percent_decode].
  destruct (N.eqb_spec b 37); [contradiction|reflexivity].
Qed.

Lemma percent_decode_escape h lo x y rest :
  hex_value h = Some x -> hex_value lo = Some y ->
  percent_decode (37 :: h :: lo :: rest) = (16 * x + y) :: percent_decode rest.
Proof.
  intros Hh Hl. cbn [percent_decode]. rewrite N.eqb_refl, Hh, Hl. reflexivity.
Qed.

(** Percent-decoding undoes percent-encoding, byte by byte. *)
Lemma percent_decode_encode bs :
  Forall (fun b => b < 256) bs ->
  percent_decode (plus_to_space (flat_map urlencoded_byte bs)) = bs.
Proof.
  induction 1 as [|b bs Hb _ IH]; [reflexivity|].
  cbn [flat_map]. unfold plus_to_space in *. rewrite map_app.
  unfold urlencoded_byte.
  destruct (urlencoded_safe b) eqn:Hs.
  - assert (b <> 43 /\ b <> 37) as [H43 H37].
    { revert Hs. unfold urlencoded_safe, is_alnum.
      tests; intros; try discriminate; lia. }
    cbn [map app]. destruct (N.eqb_spec b 43); [contradiction|].
    rewrite percent_decode_plain by assumption. f_equal. exact IH.
  - destruct (N.eqb_spec b 32) as [->|Hsp].
    + cbn [map app N.eqb Pos.eqb]. rewrite percent_decode_plain by lia.
      f_equal. exact IH.
    + unfold percent_encode_byte. cbn [map app].
      rewrite !hex_digit_not_plus by nlia.
      cbn [N.eqb Pos.eqb].
      rewrite percent_decode_escape with (x := b / 16) (y := b mod 16)
        by (apply hex_value_digit; nlia).
      f_equal; [nlia|exact IH].
Qed.

Lemma decode_component_urlencoded s : decode_component (urlencoded s) = scrub s.
Proof.
  unfold decode_component, urlencoded, scrub.
  now rewrite percent_decode_encode by apply utf8_bytes_byte.
Qed.

Lemma split_on_nonempty sep l : split_on sep l <> [].
Proof.
  destruct l as [|b rest]; cbn; [discriminate|].
  destruct (b =? sep); [discriminate|].
  destruct (split_on sep rest); discriminate.
Qed.

Lemma split_on_free sep l :
  Forall (fun u => u <> sep) l -> split_on sep l = [l].
Proof.
  induction 1 as [|b l Hb _ IH]; [reflexivity|].
  cbn. destruct (N.eqb_spec b sep); [contradiction|]. now rewrite IH.
Qed.

Lemma split_on_app sep l1 l2 :
  Forall (fun u => u <> sep) l1 ->
  split_on sep (l1 ++ sep :: l2) = l1 :: split_on sep l2.
Proof.
  induction 1 as [|b l Hb _ IH]; cbn.
  - now rewrite N.eqb_refl.
  - destruct (N.eqb_spec b sep); [contradiction|]. now rewrite IH.
Qed.

Lemma break_at_app sep n v :
  Forall (fun u => u <> sep) n -> break_at sep (n ++ sep :: v) = (n, v).
Proof.
  induction 1 as [|b l Hb _ IH]; cbn.
  - now rewrite N.eqb_refl.
  - destruct (N.eqb_spec b sep); [contradiction|]. now rewrite IH.
Qed.

Definition scrub_pair (p : jsstring * jsstring) : jsstring * jsstring :=
  (scrub (fst p), scrub (snd p)).

(** The alphabet of a serialized list of pairs. *)
Definition serialized_char (u : N) : Prop :=
  urlencoded_char u = true \/ u = 61 \/ u = 38.

Lemma serialized_char_spec u : serialized_char u -> u < 128 /\ u <> 63.
Proof.
  intros [H|[->| ->]]; [apply urlencoded_char_spec in H; tauto|lia|lia].
Qed.

Lemma urlencoded_pair_chars p :
  Forall (fun u => urlencoded_char u = true \/ u = 61) (urlencoded_pair p).
Proof.
  unfold urlencoded_pair. apply Forall_app. split; [|constructor; [now right|]];
    (eapply Forall_impl; [|apply urlencoded_chars]); intros u Hu; now left.
Qed.

Lemma urlencoded_pair_free p : Forall (fun u => u <> 38) (urlencoded_pair p).
Proof.
  eapply Forall_impl; [|apply urlencoded_pair_chars].
  intros u [H | ->]; [apply urlencoded_char_spec in H; tauto|lia].
Qed.

Lemma parse_sequence_pair p :
  parse_sequence (urlencoded_pair p) = [scrub_pair p].
Proof.
  unfold parse_sequence, urlencoded_pair.
  assert (B : break_at 61 (urlencoded (fst p) ++ [61] ++ urlencoded (snd p)) =
              (urlencoded (fst p), urlencoded (snd p))).
  { apply break_at_app. eapply Forall_impl; [|apply urlencoded_chars].
    intros u Hu. apply urlencoded_char_spec in Hu. tauto. }
  rewrite B. rewrite !decode_component_urlencoded.
  destruct (urlencoded (fst p)); reflexivity.
Qed.

Lemma join_cons sep (x y : jsstring) rest :
  join sep (x :: y :: rest) = x ++ sep ++ join sep (y :: rest).
Proof. reflexivity. Qed.

Lemma serialize_chars l : Forall serialized_char (serialize l).
Proof.
  unfold serialize.
  assert (P : forall p, Forall serialized_char (urlencoded_pair p)).
  { intros p. eapply Forall_impl; [|apply urlencoded_pair_chars].
    unfold serialized_char. intros u [H | ->]; tauto. }
  induction l as [|p [|q l] IH].
  - constructor.
  - apply P.
  - cbn [map] in *. rewrite join_cons.
    apply Forall_app. split; [apply P|].
    constructor; [right; now right|exact IH].
Qed.

Lemma serialize_ascii l : Forall (fun u => u < 128) (serialize l).
Proof.
  eapply Forall_impl; [|apply serialize_chars].
  intros u Hu. now apply serialized_char_spec in Hu.
Qed.

Lemma parse_bytes_serialize l :
  flat_map parse_sequence (split_on 38 (serialize l)) = map scrub_pair l.
Proof.
  unfold serialize.
  induction l as [|p [|q l] IH].
  - reflexivity.
  - cbn [map join]. rewrite split_on_free by apply urlencoded_pair_free.
    cbn [flat_map]. rewrite parse_sequence_pair. reflexivity.
  - cbn [map] in *. rewrite join_cons. cbn [app].
    rewrite split_on_app by apply urlencoded_pair_free. cbn [flat_map].
    rewrite parse_sequence_pair, IH. reflexivity.
Qed.

(** Parsing what the serializer wrote gives the pairs back, each string
    having passed through UTF-8. *)
Lemma parse_serialize l : parse (serialize l) = map scrub_pair l.
Proof.
  unfold parse. rewrite ascii_utf8_bytes.
  - apply parse_bytes_serialize.
  - apply serialize_ascii.
Qed.

Lemma new_URLSearchParams_serialize l :
  new_URLSearchParams (serialize l) = map scrub_pair l.
Proof.
  unfold new_URLSearchParams.
  pose proof (serialize_chars l) as H.
  destruct (serialize l) as [|u rest] eqn:E;
    [now rewrite <- E, parse_serialize|].
  inversion H as [|? ? Hu _]; subst. apply serialized_char_spec in Hu.
  destruct (N.eqb_spec u 63); [lia|].
  rewrite <- E. apply parse_serialize.
Qed.

End Codec.

(** ** The implicit-flow callback parser *)

Module CallbackFacts.

Import ImplicitGrant.

(** The two shapes of [CallbackData], told apart as the source does: by the
    key [error]. *)
Definition is_error_data (d : CallbackData) : bool := obj_has d (js "error").

Definition is_success_data (d : CallbackData) : bool :=
  negb (obj_has d (js "error"))
  && obj_has d (js "access_token")
  && obj_has d (js "expires_in")
  && obj_has d (js "token_type").

Example callback_success :
  parseCallbackData (js "#access_token=abc&token_type=Bearer&expires_in=3600")
  = inr [(js "access_token", js "abc"); (js "token_type", js "Bearer");
         (js "expires_in", js "3600")].
Proof. vm_compute. reflexivity. Qed.

Example callback_failure :
  parseCallbackData (js "#error=access_denied&state=xyz")
  = inr [(js "error", js "access_denied"); (js "state", js "xyz")].
Proof. vm_compute. reflexivity. Qed.

Example callback_malformed :
  parseCallbackData (js "#foo=bar") = inl (Error (js "Invalid params")).
Proof. vm_compute. reflexivity. Qed.

(** An error key wins over a complete set of token keys. *)
Example callback_error_and_token :
  is_error_data (decode (js "access_token=abc&token_type=Bearer&expires_in=1&error=x"))
  = true.
Proof. vm_compute. reflexivity. Qed.

Lemma parseCallbackData_returns hash d :
  parseCallbackData hash = inr d -> d = decode (substring 1 hash).
Proof.
  unfold parseCallbackData, decode.
  set (params := Object_fromEntries (new_URLSearchParams (substring 1 hash))).
  destruct (obj_has params (js "error")); [congruence|].
  destruct (_ && _); congruence.
Qed.

(** C3. For every fragment string, [parseCallbackData] returns the decoded
    parameters as a failure result whenever they contain the key [error];
    without that key it returns them as a success result exactly when
    [access_token], [expires_in] and [token_type] are all present; in every
    other case it throws the parse error instead of returning a value. *)
Theorem parseCallbackData_shapes (hash : jsstring) :
  let params := decode (substring 1 hash) in
  match parseCallbackData hash with
  | inr d =>
      d = params
      /\ (is_error_data params = true \/ is_success_data params = true)
  | inl e =>
      e = Error (js "Invalid params")
      /\ is_error_data params = false /\ is_success_data params = false
  end
  /\ (if is_error_data params then parseCallbackData hash = inr params
      else if is_success_data params then parseCallbackData hash = inr params
      else parseCallbackData hash = inl (Error (js "Invalid params"))).
Proof.
  cbv zeta. unfold parseCallbackData, is_error_data, is_success_data, decode.
  set (params := Object_fromEntries (new_URLSearchParams (substring 1 hash))).
  destruct (obj_has params (js "error")); cbn [negb andb].
  - split; [split; [reflexivity|now left]|reflexivity].
  - destruct (obj_has params (js "access_token") && obj_has params (js "expires_in")
              && obj_has params (js "token_type")) eqn:E.
    + split; [split; [reflexivity|now right]|reflexivity].
    + split; [split; [reflexivity|split; reflexivity]|reflexivity].
Qed.

(** C9. [parseCallbackData] drops the first code unit of its argument,
    whatever it is, and decodes the remainder; the result does not depend
    on the dropped unit, so a string passed without its leading [#] loses
    the first character of its first key. *)
Theorem parseCallbackData_drops_first (u : code_unit) (rest : jsstring) :
  parseCallbackData (u :: rest) = parseCallbackData (js "#" ++ rest)
  /\ parseCallbackData (u :: rest)
     = (if is_error_data (decode rest) || is_success_data (decode rest)
        then inr (decode rest)
        else inl (Error (js "Invalid params")))
  /\ parseCallbackData [] = inl (Error (js "Invalid params"))
  /\ decode (substring 1 (js "error=access_denied&state=xyz"))
     = [(js "rror", js "access_denied"); (js "state", js "xyz")]
  /\ parseCallbackData (js "error=access_denied&state=xyz")
     = inl (Error (js "Invalid params")).
Proof.
  split; [reflexivity|]. split.
  - unfold parseCallbackData, is_error_data, is_success_data, decode.
    cbn [substring skipn].
    destruct (obj_has _ (js "error")); cbn [negb andb orb]; reflexivity.
  - repeat split; vm_compute; reflexivity.
Qed.

End CallbackFacts.

(** ** The query string of a built URL *)

Module QueryFacts.

Import Transcode Codec.

Lemma query_encode_serialized u :
  serialized_char u ->
  query_encode_byte u = [u] /\ is_tab_or_newline u = false.
Proof.
  assert (A : u = 61 \/ u = 38 \/ u = 43 \/ u = 37 \/ urlencoded_safe u = true ->
              query_encode_byte u = [u] /\ is_tab_or_newline u = false).
  { intros [->|[->|[->|[->|H]]]]; try (split; reflexivity).
    revert H.
    unfold query_encode_byte, is_tab_or_newline, urlencoded_safe, is_alnum.
    tests; intros Hsafe; try discriminate Hsafe; split; reflexivity. }
  unfold serialized_char, urlencoded_char. intros [H|[H|H]]; apply A; auto.
  apply orb_true_iff in H as [H|H]; [apply orb_true_iff in H as [H|H]|].
  - auto.
  - apply N.eqb_eq in H. auto.
  - apply N.eqb_eq in H. auto.
Qed.

Lemma serialize_nonempty p l : serialize (p :: l) <> [].
Proof.
  unfold serialize. destruct l as [|q l]; cbn [map].
  - cbn [join]. unfold urlencoded_pair. now destruct (urlencoded (fst p)).
  - rewrite join_cons. unfold urlencoded_pair. now destruct (urlencoded (fst p)).
Qed.

(** Assigning a serialized parameter list to [url.search] stores it as it
    is. *)
Lemma set_search_serialize url p l :
  set_search url (serialize (p :: l)) =
  {| url_base := url_base url; url_query := Some (serialize (p :: l)) |}.
Proof.
  unfold set_search.
  pose proof (serialize_chars (p :: l)) as H.
  pose proof (serialize_nonempty p l) as Hne.
  destruct (serialize (p :: l)) as [|u rest] eqn:E; [contradiction|].
  clear Hne.
  assert (Hu : u <> 63).
  { inversion H as [|? ? Hu _]; subst. now apply serialized_char_spec in Hu. }
  destruct (N.eqb_spec u 63); [contradiction|].
  f_equal. f_equal.
  assert (F : filter (fun c => negb (is_tab_or_newline c)) (u :: rest) = u :: rest).
  { clear E Hu n. induction H as [|x xs Hx _ IH]; [reflexivity|].
    cbn [filter]. destruct (query_encode_serialized Hx) as [_ ->].
    cbn [negb]. now rewrite IH. }
  rewrite F. rewrite ascii_utf8_bytes.
  - clear E Hu n F. induction H as [|x xs Hx _ IH]; [reflexivity|].
    cbn [flat_map]. destruct (query_encode_serialized Hx) as [-> _].
    cbn [app]. now rewrite IH.
  - eapply Forall_impl; [|exact H]. intros x Hx.
    now apply serialized_char_spec in Hx.
Qed.

(** A string literal is well formed, and so is the text of a number or a
    boolean. *)
Lemma well_formed_below s :
  Forall (fun u => u < 0xD800) s -> well_formed s = true.
Proof.
  induction 1 as [|u s Hu _ IH]; [reflexivity|].
  cbn [well_formed]. unfold is_lead, is_trail. tests. exact IH.
Qed.

Lemma js_well_formed (s : string) : well_formed (js s) = true.
Proof.
  apply well_formed_below. unfold js. apply Forall_map, Forall_forall.
  intros a _. pose proof (N_ascii_bounded a). lia.
Qed.

Lemma scrub_js (s : string) : scrub (js s) = js s.
Proof. apply scrub_well_formed, js_well_formed. Qed.

(** Assigning any serialized parameter list to [url.search]: the empty
    list serializes to the empty string, which removes the query. *)
Definition query_of (ps : list (jsstring * jsstring)) : option jsstring :=
  match ps with
  | [] => None
  | _ => Some (serialize ps)
  end.

Lemma set_search_query_of url ps :
  set_search url (serialize ps) =
  {| url_base := url_base url; url_query := query_of ps |}.
Proof.
  destruct ps as [|p l]; [reflexivity|]. apply set_search_serialize.
Qed.

End QueryFacts.

(** ** Objects as mappings, and what their encoding holds *)

Module MappingFacts.

Import Transcode Codec QueryFacts.

(** The present entries of a mapping, each value as its text. *)
Definition rendered (m : JsObject JsValue) : JsObject jsstring :=
  flat_map
    (fun kv =>
       match snd kv with
       | JUndefined => []
       | v => [(fst kv, toString v)]
       end)
    m.

(** The text a property is encoded as: none when the property is absent
    or undefined. *)
Definition present (v : option JsValue) : option jsstring :=
  match v with
  | None | Some JUndefined => None
  | Some v => Some (toString v)
  end.

(** The decoded mapping seen as a mapping of values again: decoding yields
    strings only. *)
Definition as_values (d : JsObject jsstring) : JsObject JsValue :=
  map (fun kv => (fst kv, JString (snd kv))) d.

(** A value whose text has no lone surrogate.  The text of a number never
    has one. *)
Definition value_well_formed (v : JsValue) : bool :=
  match v with
  | JString s => well_formed s
  | JNumber text => well_formed text
  | _ => true
  end.

(** Names and values without lone surrogates. *)
Definition text_well_formed (m : JsObject JsValue) : bool :=
  forallb (fun kv => well_formed (fst kv) && value_well_formed (snd kv)) m.

Definition fields_well_formed (l : list (jsstring * jsstring)) : bool :=
  forallb (fun kv => well_formed (fst kv) && well_formed (snd kv)) l.

Fixpoint distinct (l : list jsstring) : bool :=
  match l with
  | [] => true
  | k :: rest => negb (existsb (JsString.eqb k) rest) && distinct rest
  end.

Lemma distinct_NoDup l : distinct l = true -> NoDup l.
Proof.
  induction l as [|k l IH]; cbn; [constructor|].
  intros H. apply andb_true_iff in H as [H1 H2].
  constructor; [|now apply IH].
  intros Hin. apply negb_true_iff in H1.
  assert (existsb (JsString.eqb k) l = true); [|congruence].
  apply existsb_exists. exists k. split; [exact Hin|apply eqb_refl].
Qed.

(** *** Looking a property up *)

Section Lookup.

Variable V : Type.

Implicit Types (o acc l : JsObject V) (k n : jsstring).

Lemma obj_get_app o l k :
  obj_get (o ++ l) k
  = match obj_get o k with
    | Some w => Some w
    | None => obj_get l k
    end.
Proof.
  induction o as [|[n w] o IH]; [reflexivity|].
  cbn [app obj_get]. destruct (JsString.eqb n k); [reflexivity|exact IH].
Qed.

Lemma obj_get_set o n (v : V) k :
  obj_get (obj_set o n v) k
  = if JsString.eqb n k then Some v else obj_get o k.
Proof.
  induction o as [|[n' w'] o IH]; cbn [obj_set obj_get]; [reflexivity|].
  destruct (JsString.eqb n' n) eqn:E; cbn [obj_get].
  - apply eqb_eq in E. subst n'. destruct (JsString.eqb n k); reflexivity.
  - destruct (JsString.eqb n' k) eqn:E'; [|exact IH].
    destruct (JsString.eqb n k) eqn:E''; [|reflexivity].
    apply eqb_eq in E', E''. subst. now rewrite eqb_refl in E.
Qed.

Lemma obj_get_absent l k : obj_get l k = None <-> ~ In k (map fst l).
Proof.
  induction l as [|[n w] l IH]; cbn [obj_get map fst In]; [tauto|].
  destruct (JsString.eqb n k) eqn:E.
  - apply eqb_eq in E. split; [discriminate|tauto].
  - apply eqb_neq in E. tauto.
Qed.

Lemma obj_has_false o k : obj_has o k = false -> obj_get o k = None.
Proof. unfold obj_has. now destruct (obj_get o k). Qed.

Lemma obj_get_rev_absent l k :
  obj_get l k = None -> obj_get (rev l) k = None.
Proof.
  rewrite !obj_get_absent, map_rev. intros H Hin. apply H.
  now apply in_rev.
Qed.

(** In an object, where every name occurs once, the order of the
    properties does not matter to a lookup. *)
Lemma obj_get_rev l k : NoDup (map fst l) -> obj_get (rev l) k = obj_get l k.
Proof.
  induction l as [|[n w] l IH]; [reflexivity|].
  cbn [map fst rev obj_get]. intros H. inversion H as [|? ? Hn Hl]; subst.
  rewrite obj_get_app, IH by exact Hl. cbn [obj_get].
  destruct (JsString.eqb n k) eqn:E; [|now destruct (obj_get l k)].
  apply eqb_eq in E. subst k.
  apply obj_get_absent in Hn. now rewrite Hn.
Qed.

(** A spread defines the properties of its source one after the other: the
    last value given to a name is the one kept. *)
Lemma fromEntries_acc l acc k :
  obj_get (obj_spread acc l) k
  = match obj_get (rev l) k with
    | Some v => Some v
    | None => obj_get acc k
    end.
Proof.
  unfold obj_spread. revert acc.
  induction l as [|[n v] l IH]; intros acc; [reflexivity|].
  cbn [fold_left fst snd rev]. rewrite IH, obj_get_app, obj_get_set.
  cbn [obj_get].
  destruct (obj_get (rev l) k); [reflexivity|].
  destruct (JsString.eqb n k); reflexivity.
Qed.

Lemma obj_spread_get acc l k :
  NoDup (map fst l) ->
  obj_get (obj_spread acc l) k
  = match obj_get l k with
    | Some v => Some v
    | None => obj_get acc k
    end.
Proof. intros H. now rewrite fromEntries_acc, obj_get_rev. Qed.

Lemma obj_spread_absent acc l k :
  obj_get l k = None -> obj_get (obj_spread acc l) k = obj_get acc k.
Proof.
  intros H. rewrite fromEntries_acc. now rewrite obj_get_rev_absent.
Qed.

Lemma obj_set_fresh o k (v : V) :
  ~ In k (map fst o) -> obj_set o k v = o ++ [(k, v)].
Proof.
  induction o as [|[n w] o IH]; cbn; [reflexivity|].
  intros H. destruct (JsString.eqb n k) eqn:E.
  - apply eqb_eq in E. tauto.
  - rewrite IH by tauto. reflexivity.
Qed.

Lemma obj_spread_acc l acc :
  NoDup (map fst acc ++ map fst l) -> obj_spread acc l = acc ++ l.
Proof.
  unfold obj_spread. revert acc.
  induction l as [|[n v] l IH]; intros acc H; cbn [fold_left].
  - now rewrite app_nil_r.
  - cbn [map fst snd] in *.
    assert (Hn : ~ In n (map fst acc)).
    { intros Hin. apply NoDup_remove_2 in H. apply H.
      apply in_app_iff. now left. }
    rewrite obj_set_fresh by exact Hn. rewrite IH.
    + now rewrite <- app_assoc.
    + rewrite map_app, <- app_assoc. exact H.
Qed.

Lemma Object_fromEntries_NoDup (l : list (jsstring * V)) :
  NoDup (map fst l) -> Object_fromEntries l = l.
Proof. intros H. unfold Object_fromEntries. now rewrite obj_spread_acc. Qed.

(** *** The names of an object *)

Lemma obj_set_names o k (v : V) x :
  In x (obj_keys (obj_set o k v)) -> x = k \/ In x (obj_keys o).
Proof.
  unfold obj_keys.
  induction o as [|[n w] o IH]; cbn [obj_set map fst In].
  - intros [<-|[]]. now left.
  - destruct (JsString.eqb n k); cbn [map fst In]; intros [<-|Hx]; auto.
    destruct (IH Hx); auto.
Qed.

Lemma obj_spread_names acc l x :
  In x (obj_keys (obj_spread acc l)) ->
  In x (obj_keys acc) \/ In x (obj_keys l).
Proof.
  unfold obj_spread. revert acc.
  induction l as [|[n v] l IH]; intros acc; cbn [fold_left fst snd]; [auto|].
  intros H. apply IH in H as [H|H].
  - apply obj_set_names in H as [->|H]; [right; now left|now left].
  - right. now right.
Qed.

Lemma obj_set_keys o k (v : V) :
  NoDup (obj_keys o) -> NoDup (obj_keys (obj_set o k v)).
Proof.
  unfold obj_keys.
  induction o as [|[n w] o IH]; cbn [obj_set map fst]; intros H.
  - repeat constructor. intros [].
  - inversion H as [|? ? Hn Ho]; subst.
    destruct (JsString.eqb n k) eqn:E; cbn [map fst]; [now constructor|].
    constructor; [|now apply IH].
    intros Hin. apply obj_set_names in Hin as [->|Hin]; [|contradiction].
    now rewrite eqb_refl in E.
Qed.

Lemma obj_spread_keys acc l :
  NoDup (obj_keys acc) -> NoDup (obj_keys (obj_spread acc l)).
Proof.
  unfold obj_spread. revert acc.
  induction l as [|[n v] l IH]; intros acc H; [exact H|].
  cbn [fold_left fst snd]. apply IH. now apply obj_set_keys.
Qed.

Lemma fromEntries_keys (l : list (jsstring * V)) :
  NoDup (obj_keys (Object_fromEntries l)).
Proof. apply obj_spread_keys. constructor. Qed.

End Lookup.

(** *** The parameters an object is encoded as *)

Lemma params_set_fresh ps k v :
  ~ In k (map fst ps) -> params_set ps k v = ps ++ [(k, v)].
Proof.
  induction ps as [|[n w] ps IH]; cbn; [reflexivity|].
  intros H. destruct (JsString.eqb n k) eqn:E.
  - apply eqb_eq in E. tauto.
  - rewrite IH by tauto. reflexivity.
Qed.

Lemma rendered_keys m k : In k (map fst (rendered m)) -> In k (map fst m).
Proof.
  induction m as [|[n v] m IH]; cbn; [tauto|].
  rewrite map_app, in_app_iff. intros [H|H]; [|right; now apply IH].
  destruct v; cbn in H; tauto.
Qed.

Lemma rendered_NoDup m : NoDup (map fst m) -> NoDup (map fst (rendered m)).
Proof.
  induction m as [|[n v] m IH]; cbn; [constructor|].
  intros H. inversion H as [|? ? Hn Hm]; subst.
  assert (Hn' : ~ In n (map fst (rendered m)))
    by (intros Hin; apply Hn; now apply rendered_keys).
  destruct v; cbn; try (constructor; [assumption|]); now apply IH.
Qed.

Lemma objectToSearchParams_acc m acc :
  NoDup (map fst acc ++ map fst m) ->
  fold_left
    (fun ps kv =>
       match snd kv with
       | JUndefined => ps
       | v => params_set ps (fst kv) (toString v)
       end) m acc
  = acc ++ rendered m.
Proof.
  revert acc. induction m as [|[n v] m IH]; intros acc H; cbn [fold_left].
  - cbn. now rewrite app_nil_r.
  - cbn [map fst] in H.
    assert (Hn : ~ In n (map fst acc)).
    { intros Hin. apply NoDup_remove_2 in H. apply H.
      apply in_app_iff. now left. }
    assert (Hrest : NoDup (map fst acc ++ map fst m))
      by now apply NoDup_remove_1 in H.
    assert (Hnew : NoDup (map fst (acc ++ [(n, toString v)]) ++ map fst m)).
    { rewrite map_app, <- app_assoc. exact H. }
    cbn [snd fst rendered flat_map].
    destruct v; cbn [app];
      try (rewrite params_set_fresh by exact Hn; rewrite IH by exact Hnew;
           now rewrite <- app_assoc).
    now apply IH.
Qed.

Lemma objectToSearchParams_rendered m :
  NoDup (obj_keys m) -> objectToSearchParams m = rendered m.
Proof.
  intros H. unfold objectToSearchParams.
  now rewrite objectToSearchParams_acc.
Qed.

Lemma rendered_cons k v m :
  rendered ((k, v) :: m)
  = match v with
    | JUndefined => []
    | _ => [(k, toString v)]
    end ++ rendered m.
Proof. destruct v; reflexivity. Qed.

Lemma obj_get_skip V n w (l : JsObject V) k :
  JsString.eqb n k = false -> obj_get ([(n, w)] ++ l) k = obj_get l k.
Proof.
  intros E. change ([(n, w)] ++ l) with ((n, w) :: l).
  cbn [obj_get]. now rewrite E.
Qed.

(** The parameter of a name is the text of the property of that name. *)
Lemma rendered_get m k :
  NoDup (map fst m) -> obj_get (rendered m) k = present (obj_get m k).
Proof.
  induction m as [|[n v] m IH]; [reflexivity|].
  cbn [map fst obj_get]. intros Hd. inversion Hd as [|? ? Hn Hm]; subst.
  rewrite rendered_cons.
  destruct (JsString.eqb n k) eqn:E.
  - apply eqb_eq in E. subst k.
    destruct v; cbn [app obj_get present toString];
      rewrite ?eqb_refl; try reflexivity.
    apply obj_get_absent. intros Hin. apply Hn. now apply rendered_keys.
  - destruct v; [now apply IH|..];
      rewrite obj_get_skip by exact E; now apply IH.
Qed.

Lemma rendered_undefined m k :
  NoDup (map fst m) -> obj_get m k = Some JUndefined ->
  obj_get (rendered m) k = None.
Proof. intros Hd Hk. now rewrite rendered_get, Hk. Qed.

(** The parameters of [{ ...literal, ...opts }]. *)
Lemma merged_NoDup lit opts :
  NoDup (obj_keys lit) -> NoDup (map fst (rendered (obj_spread lit opts))).
Proof. intros H. now apply rendered_NoDup, obj_spread_keys. Qed.

Lemma merged_get lit opts k :
  NoDup (obj_keys lit) -> NoDup (obj_keys opts) ->
  obj_get (rendered (obj_spread lit opts)) k
  = present (match obj_get opts k with
             | Some v => Some v
             | None => obj_get lit k
             end).
Proof.
  intros Hl Ho. rewrite rendered_get by now apply obj_spread_keys.
  now rewrite obj_spread_get.
Qed.

Lemma merged_kept lit opts k :
  NoDup (obj_keys lit) -> obj_get opts k = None ->
  obj_get (rendered (obj_spread lit opts)) k = present (obj_get lit k).
Proof.
  intros Hl Ho. rewrite rendered_get by now apply obj_spread_keys.
  now rewrite obj_spread_absent.
Qed.

Lemma merged_names lit opts k :
  In k (map fst (rendered (obj_spread lit opts))) ->
  In k (obj_keys lit) \/ In k (obj_keys opts).
Proof. intros H. now apply obj_spread_names, rendered_keys. Qed.

Lemma query_of_present ps k v :
  obj_get ps k = Some v -> query_of ps = Some (serialize ps).
Proof. destruct ps; [discriminate|reflexivity]. Qed.

(** *** Well-formed text *)

Lemma scrub_fields l :
  fields_well_formed l = true -> map scrub_pair l = l.
Proof.
  induction l as [|[k v] l IH]; cbn; [reflexivity|].
  intros H. apply andb_true_iff in H as [H Hl].
  apply andb_true_iff in H as [Hk Hv].
  unfold scrub_pair at 1. cbn [fst snd].
  now rewrite !scrub_well_formed, IH.
Qed.

Lemma rendered_well_formed m :
  text_well_formed m = true -> fields_well_formed (rendered m) = true.
Proof.
  induction m as [|[k v] m IH]; [reflexivity|].
  cbn [text_well_formed forallb fst snd].
  intros H. apply andb_true_iff in H as [H Hm].
  apply andb_true_iff in H as [Hk Hv].
  rewrite rendered_cons. unfold fields_well_formed in *.
  rewrite forallb_app, IH by exact Hm. rewrite andb_true_r.
  destruct v as [|s|n|[|]]; cbn [forallb fst snd toString]; [reflexivity|..];
    rewrite Hk; cbn [andb]; rewrite andb_true_r;
    [exact Hv|exact Hv|apply js_well_formed..].
Qed.

Lemma text_well_formed_set o k v :
  text_well_formed o = true -> well_formed k = true ->
  value_well_formed v = true ->
  text_well_formed (obj_set o k v) = true.
Proof.
  intros Ho Hk Hv. induction o as [|[n w] o IH]; cbn [obj_set].
  - cbn. now rewrite Hk, Hv.
  - cbn [text_well_formed forallb fst snd] in Ho.
    apply andb_true_iff in Ho as [Hn Ho].
    apply andb_true_iff in Hn as [Hn Hw].
    destruct (JsString.eqb n k); cbn [text_well_formed forallb fst snd].
    + now rewrite Hn, Hv, Ho.
    + rewrite Hn, Hw. cbn [andb]. now apply IH.
Qed.

Lemma text_well_formed_spread acc l :
  text_well_formed acc = true -> text_well_formed l = true ->
  text_well_formed (obj_spread acc l) = true.
Proof.
  unfold obj_spread. revert acc.
  induction l as [|[n v] l IH]; intros acc Ha Hl; [exact Ha|].
  cbn [text_well_formed forallb fst snd] in Hl.
  apply andb_true_iff in Hl as [Hn Hl].
  apply andb_true_iff in Hn as [Hn Hv].
  cbn [fold_left fst snd]. apply IH; [|exact Hl].
  now apply text_well_formed_set.
Qed.

(** Parsing keeps the names that are well formed. *)
Lemma parsed_get ps k :
  (forall n, In n (map fst ps) -> well_formed n = true) ->
  NoDup (map fst ps) ->
  obj_get (Object_fromEntries (map scrub_pair ps)) k
  = option_map scrub (obj_get ps k).
Proof.
  intros Hw Hd.
  assert (K : map fst (map scrub_pair ps) = map fst ps).
  { clear Hd. induction ps as [|[n v] ps IH]; [reflexivity|].
    cbn [map fst scrub_pair]. rewrite scrub_well_formed, IH.
    - reflexivity.
    - intros x Hx. apply Hw. now right.
    - apply Hw. now left. }
  rewrite Object_fromEntries_NoDup by now rewrite K.
  clear Hd K. induction ps as [|[n v] ps IH]; [reflexivity|].
  cbn [map obj_get]. unfold scrub_pair at 1. cbn [fst snd].
  rewrite scrub_well_formed by (apply Hw; now left).
  destruct (JsString.eqb n k); [reflexivity|].
  apply IH. intros x Hx. apply Hw. now right.
Qed.

(** *** Decoding what was encoded *)

Lemma decode_serialize l :
  NoDup (map fst l) -> fields_well_formed l = true ->
  decode (serialize l) = l.
Proof.
  intros Hd Hw. unfold decode.
  rewrite new_URLSearchParams_serialize, scrub_fields by assumption.
  now apply Object_fromEntries_NoDup.
Qed.

Lemma url_search_serialize base p l :
  url_search {| url_base := base; url_query := Some (serialize (p :: l)) |}
  = 63 :: serialize (p :: l).
Proof.
  unfold url_search. cbn [url_query].
  pose proof (serialize_nonempty p l) as H.
  now destruct (serialize (p :: l)).
Qed.

Lemma decode_search base p l :
  NoDup (map fst (p :: l)) -> fields_well_formed (p :: l) = true ->
  decode (url_search {| url_base := base;
                        url_query := Some (serialize (p :: l)) |})
  = p :: l.
Proof.
  intros Hd Hw. rewrite url_search_serialize.
  unfold decode, new_URLSearchParams. rewrite N.eqb_refl.
  rewrite parse_serialize, scrub_fields by assumption.
  now apply Object_fromEntries_NoDup.
Qed.

Lemma decode_query_of base ps :
  NoDup (map fst ps) -> fields_well_formed ps = true ->
  decode (url_search {| url_base := base; url_query := query_of ps |}) = ps.
Proof.
  destruct ps as [|p l]; [reflexivity|]. apply decode_search.
Qed.

(** The parameters of a URL whose query is a serialized list. *)
Lemma searchParams_query_of base ps :
  url_searchParams {| url_base := base; url_query := query_of ps |}
  = map scrub_pair ps.
Proof.
  destruct ps as [|p l]; [reflexivity|].
  unfold url_searchParams. cbn [url_query query_of]. apply parse_serialize.
Qed.

End MappingFacts.

(** ** The requests of the authorization-code flow *)

Module FlowFacts.

Import Transcode Codec QueryFacts MappingFacts AuthCode.

(** The scope parameter of a scope list: the identifiers joined by single
    spaces. *)
Definition scope_text (scopes : option (list AuthScope)) : option jsstring :=
  option_map (join (js " ")) scopes.

(** The parameters a request body holds, if it has a body. *)
Definition body_params (req : Request) : option URLSearchParams :=
  option_map new_URLSearchParams (req_body req).

(** How a call to the token endpoint settles, given the outcome of its one
    request. *)
Definition token_outcome (o : FetchOutcome) : Exn + Json :=
  match o with
  | Failed => inl NetworkError
  | Responded res =>
      match res_json res with
      | None => inl SyntaxError
      | Some data =>
          if res_ok res then inr data
          else inl (SpotifyAuthError data (res_status res))
      end
  end.

Lemma run_token_call (net : Network) (req : Request) :
  run net
    (await res <- fetch req ;;
     if negb (res_ok res)
     then await e <- SpotifyAuthError_create res ;; Reject e
     else await data <- json res ;; Resolve data)
  = ([req], token_outcome (net req)).
Proof.
  cbn. unfold token_outcome, SpotifyAuthError_create, json.
  destruct (net req) as [res|]; [|reflexivity].
  cbn. destruct (res_ok res), (res_json res); reflexivity.
Qed.

Lemma run_in_token_call W (net : Service W) (req : Request) (w : W) :
  run_in net
    (await res <- fetch req ;;
     if negb (res_ok res)
     then await e <- SpotifyAuthError_create res ;; Reject e
     else await data <- json res ;; Resolve data) w
  = ([req], token_outcome (fst (net w req)), snd (net w req)).
Proof.
  cbn. unfold token_outcome, SpotifyAuthError_create, json.
  destruct (net w req) as [[res|] w']; [|reflexivity].
  cbn. destruct (res_ok res), (res_json res); reflexivity.
Qed.

(** Joining keeps the order and the duplicates of the list: splitting the
    joined string at the spaces gives the identifiers back. *)
Lemma split_join (l : list AuthScope) :
  l <> [] -> Forall (Forall (fun u => u <> 32)) l ->
  split_on 32 (join (js " ") l) = l.
Proof.
  intros Hne H. induction H as [|x l Hx Hl IH]; [contradiction|].
  destruct l as [|y l].
  - cbn [join]. now apply split_on_free.
  - rewrite join_cons. change (js " " ++ ?r) with (32 :: r).
    rewrite split_on_app by exact Hx. f_equal. apply IH. discriminate.
Qed.

(** The refresh function among the options handed to the provider
    constructor, when they hold one. *)
Definition refresher_of (X : Type) (given : JsObject (ProviderOption X))
  : option (unit -> Async Json) :=
  match obj_get given (js "refresher") with
  | Some (Refresher f) => Some f
  | _ => None
  end.

Section Endpoints.

Variable SPOTIFY_AUTH : jsstring.
Variable AUTHORIZE_URL : jsstring.

(** The request of a code exchange and of a refresh. *)
Definition grant_request (c : Credentials) (redirect_uri code : jsstring)
  : Request :=
  {| req_url :=
       {| url_base := SPOTIFY_AUTH ++ js "api/token";
          url_query :=
            Some (serialize
                    [(js "code", code); (js "redirect_uri", redirect_uri);
                     (js "grant_type", js "authorization_code")]) |};
     req_method := js "POST";
     req_headers :=
       [(js "Authorization",
         getBasicAuthHeader (client_id c) (client_secret c));
        (js "Content-Type", js "application/x-www-form-urlencoded")];
     req_body := None |}.

Definition refresh_request (c : Credentials) (refresh_token : jsstring)
  : Request :=
  {| req_url :=
       {| url_base := SPOTIFY_AUTH ++ js "api/token";
          url_query :=
            Some (serialize
                    [(js "refresh_token", refresh_token);
                     (js "grant_type", js "refresh_token")]) |};
     req_method := js "POST";
     req_headers :=
       [(js "Authorization",
         getBasicAuthHeader (client_id c) (client_secret c));
        (js "Content-Type", js "application/x-www-form-urlencoded")];
     req_body := None |}.

Lemma run_getGrantData c redirect_uri code net :
  run net (getGrantData SPOTIFY_AUTH (new_AuthCode c) redirect_uri code)
  = ([grant_request c redirect_uri code],
     token_outcome (net (grant_request c redirect_uri code))).
Proof.
  unfold getGrantData. rewrite run_token_call.
  unfold token_request, toQueryString, params_toString.
  change (objectToSearchParams _)
    with [(js "code", code); (js "redirect_uri", redirect_uri);
          (js "grant_type", js "authorization_code")].
  rewrite set_search_serialize. reflexivity.
Qed.

Lemma run_refresh c refresh_token net :
  run net (refresh SPOTIFY_AUTH (new_AuthCode c) refresh_token)
  = ([refresh_request c refresh_token],
     token_outcome (net (refresh_request c refresh_token))).
Proof.
  unfold refresh. rewrite run_token_call.
  unfold token_request, toQueryString, params_toString.
  change (objectToSearchParams _)
    with [(js "refresh_token", refresh_token);
          (js "grant_type", js "refresh_token")].
  rewrite set_search_serialize. reflexivity.
Qed.

(** C1, amended. For every code and redirect_uri, [getGrantData] sends
    exactly one request: a POST to the token endpoint that has no body and
    carries the parameters [code], [redirect_uri] and
    [grant_type=authorization_code] url-encoded in the query of its URL,
    with the headers [Authorization], the Basic-auth value, and
    [Content-Type: application/x-www-form-urlencoded]; on a success status
    it returns what the response JSON parses to. *)
Theorem getGrantData_request (c : Credentials) (redirect_uri code : jsstring)
    (net : Network) :
  let call := getGrantData SPOTIFY_AUTH (new_AuthCode c) redirect_uri code in
  let req := grant_request c redirect_uri code in
  requests net call = [req]
  /\ req_method req = js "POST"
  /\ url_base (req_url req) = SPOTIFY_AUTH ++ js "api/token"
  /\ req_body req = None
  /\ url_searchParams (req_url req)
     = [(js "code", scrub code); (js "redirect_uri", scrub redirect_uri);
        (js "grant_type", js "authorization_code")]
  /\ match net req with
     | Responded res =>
         if res_ok res
         then settles net call
              = match res_json res with
                | Some data => inr data
                | None => inl SyntaxError
                end
         else True
     | Failed => True
     end.
Proof.
  cbv zeta. unfold requests, settles. rewrite run_getGrantData. cbn [fst snd].
  repeat split.
  - unfold url_searchParams, grant_request. cbn [req_url url_query].
    rewrite parse_serialize. cbn [map]. unfold scrub_pair. cbn [fst snd].
    now rewrite !scrub_js.
  - unfold token_outcome.
    destruct (net _) as [res|]; [|exact I].
    destruct (res_ok res); [|exact I]. now destruct (res_json res).
Qed.

(** C2, amended. For every response of the token endpoint whose body is
    JSON, the exchange and the refresh fail if and only if the status is
    not a success status; they then raise the error that carries the
    parsed body and the status code, and on a success status they return
    the parsed body. *)
Theorem token_call_outcome (c : Credentials)
    (redirect_uri code refresh_token : jsstring)
    (net : Network) (res : Response) (data : Json) :
  (forall req, net req = Responded res) ->
  res_json res = Some data ->
  let exchange := getGrantData SPOTIFY_AUTH (new_AuthCode c) redirect_uri code in
  let renewal := refresh SPOTIFY_AUTH (new_AuthCode c) refresh_token in
  let outcome :=
    if res_ok res then inr data
    else inl (SpotifyAuthError data (res_status res)) in
  settles net exchange = outcome
  /\ settles net renewal = outcome
  /\ ((exists e, settles net exchange = inl e) <-> res_ok res = false)
  /\ ((exists e, settles net renewal = inl e) <-> res_ok res = false).
Proof.
  intros Hnet Hjson. cbv zeta. unfold settles.
  rewrite run_getGrantData, run_refresh. cbn [snd].
  rewrite !Hnet. unfold token_outcome. rewrite Hjson.
  destruct (res_ok res); repeat split; try reflexivity;
    try (intros [e He]; discriminate He); try discriminate; eauto.
Qed.

Lemma run_in_refresh W (net : Service W) c refresh_token w :
  fst (fst (run_in net (refresh SPOTIFY_AUTH (new_AuthCode c) refresh_token) w))
  = [refresh_request c refresh_token].
Proof.
  unfold refresh. rewrite run_in_token_call. cbn [fst].
  unfold token_request, toQueryString, params_toString.
  change (objectToSearchParams _)
    with [(js "refresh_token", refresh_token);
          (js "grant_type", js "refresh_token")].
  rewrite set_search_serialize. reflexivity.
Qed.

(** C10, amended. When the options given to [createAuthProvider] have no
    property named [refresher], the refresher handed to the provider
    constructor is, at every invocation, the call [refresh(refresh_token)]
    on the instance, with the refresh token given at creation: whenever it
    runs, and however the network stands, it sends the one request that
    carries this refresh token and the Basic-auth header of the credentials
    the instance was constructed with. *)
Theorem refresher_is_bound (X : Type) (c : Credentials)
    (refresh_token : jsstring) (opts : JsObject (ProviderOption X)) :
  obj_has opts (js "refresher") = false ->
  let this := new_AuthCode c in
  let given :=
    createAuthProvider SPOTIFY_AUTH (fun o => o) this refresh_token opts in
  let sent := refresh_request c refresh_token in
  exists r,
    refresher_of given = Some r
    /\ (forall invocation : unit,
          r invocation = refresh SPOTIFY_AUTH this refresh_token)
    /\ (forall (W : Type) (net : Service W) (w : W) (invocation : unit),
          fst (fst (run_in net (r invocation) w)) = [sent])
    /\ url_searchParams (req_url sent)
       = [(js "refresh_token", scrub refresh_token);
          (js "grant_type", js "refresh_token")]
    /\ req_headers sent
       = [(js "Authorization",
           getBasicAuthHeader (client_id c) (client_secret c));
          (js "Content-Type", js "application/x-www-form-urlencoded")].
Proof.
  intros Hopts. cbv zeta.
  exists (fun _ => refresh SPOTIFY_AUTH (new_AuthCode c) refresh_token).
  split.
  { unfold refresher_of, createAuthProvider.
    rewrite obj_spread_absent by now apply obj_has_false.
    cbn [obj_set obj_get]. now rewrite eqb_refl. }
  split; [reflexivity|]. split.
  { intros W net w _. apply run_in_refresh. }
  split; [|reflexivity].
  unfold url_searchParams, refresh_request. cbn [req_url url_query].
  rewrite parse_serialize. cbn [map]. unfold scrub_pair. cbn [fst snd].
  now rewrite !scrub_js.
Qed.

(** The object literals of the two URL builders, before [...opts]. *)
Definition code_literal (c : Credentials) (o : GetAuthURLOpts)
  : JsObject JsValue :=
  [(js "response_type", JString (js "code"));
   (js "scope", join_scopes (AuthCode.scopes o));
   (js "client_id", JString (client_id c))].

Definition token_literal (o : ImplicitGrant.GetRedirectURLOpts)
  : JsObject JsValue :=
  [(js "response_type", JString (js "token"));
   (js "scope", join_scopes (ImplicitGrant.scopes o))].

(** The parameters of the two URLs. *)
Definition code_params (c : Credentials) (o : GetAuthURLOpts)
  : list (jsstring * jsstring) :=
  rendered (obj_spread (code_literal c o) (AuthCode.opts o)).

Definition token_params (o : ImplicitGrant.GetRedirectURLOpts)
  : list (jsstring * jsstring) :=
  rendered (obj_spread (token_literal o) (ImplicitGrant.opts o)).

Lemma code_literal_keys c o : NoDup (obj_keys (code_literal c o)).
Proof. apply distinct_NoDup. reflexivity. Qed.

Lemma token_literal_keys o : NoDup (obj_keys (token_literal o)).
Proof. apply distinct_NoDup. reflexivity. Qed.

Lemma getAuthURL_query c o :
  getAuthURL SPOTIFY_AUTH (new_AuthCode c) o =
  {| url_base := SPOTIFY_AUTH ++ js "authorize";
     url_query := query_of (code_params c o) |}.
Proof.
  unfold getAuthURL, toQueryString, params_toString.
  change (obj_set (obj_set (obj_set [] _ _) _ _) _ _) with (code_literal c o).
  rewrite objectToSearchParams_rendered
    by apply obj_spread_keys, code_literal_keys.
  apply set_search_query_of.
Qed.

Lemma getRedirectURL_query o :
  ImplicitGrant.getRedirectURL AUTHORIZE_URL o =
  {| url_base := AUTHORIZE_URL; url_query := query_of (token_params o) |}.
Proof.
  unfold ImplicitGrant.getRedirectURL, params_toString.
  change (obj_set (obj_set [] _ _) _ _) with (token_literal o).
  rewrite objectToSearchParams_rendered
    by apply obj_spread_keys, token_literal_keys.
  apply set_search_query_of.
Qed.

(** C6, amended. For every authorization request whose options have no
    property named [response_type], the query string of the URL is the
    url-encoding of a list of parameters, each name once, in which
    [response_type] is [code] for the authorization-code flow and [token]
    for the implicit flow.  Every property of the options that is not
    undefined is a parameter, under its name and with the text of its
    value; the scope list and the client identifier of the instance are
    parameters unless the options have a property of that name; there is
    no other parameter. *)
Theorem response_type_is_fixed (c : Credentials) (o : GetAuthURLOpts)
    (o' : ImplicitGrant.GetRedirectURLOpts) :
  NoDup (obj_keys (AuthCode.opts o)) ->
  NoDup (obj_keys (ImplicitGrant.opts o')) ->
  obj_has (AuthCode.opts o) (js "response_type") = false ->
  obj_has (ImplicitGrant.opts o') (js "response_type") = false ->
  let url := getAuthURL SPOTIFY_AUTH (new_AuthCode c) o in
  let url' := ImplicitGrant.getRedirectURL AUTHORIZE_URL o' in
  exists ps ps',
    url_query url = Some (serialize ps)
    /\ url_query url' = Some (serialize ps')
    /\ NoDup (map fst ps)
    /\ NoDup (map fst ps')
    /\ obj_get ps (js "response_type") = Some (js "code")
    /\ obj_get ps' (js "response_type") = Some (js "token")
    /\ (forall k v, obj_get (AuthCode.opts o) k = Some v ->
                    obj_get ps k = present (Some v))
    /\ (forall k v, obj_get (ImplicitGrant.opts o') k = Some v ->
                    obj_get ps' k = present (Some v))
    /\ (obj_has (AuthCode.opts o) (js "scope") = false ->
        obj_get ps (js "scope") = scope_text (AuthCode.scopes o))
    /\ (obj_has (ImplicitGrant.opts o') (js "scope") = false ->
        obj_get ps' (js "scope") = scope_text (ImplicitGrant.scopes o'))
    /\ (obj_has (AuthCode.opts o) (js "client_id") = false ->
        obj_get ps (js "client_id") = Some (client_id c))
    /\ (forall k, In k (map fst ps) ->
                  In k [js "response_type"; js "scope"; js "client_id"]
                  \/ In k (obj_keys (AuthCode.opts o)))
    /\ (forall k, In k (map fst ps') ->
                  In k [js "response_type"; js "scope"]
                  \/ In k (obj_keys (ImplicitGrant.opts o'))).
Proof.
  intros Hd Hd' Hr Hr'. cbv zeta.
  exists (code_params c o), (token_params o').
  rewrite getAuthURL_query, getRedirectURL_query. cbn [url_query].
  assert (R : obj_get (code_params c o) (js "response_type")
              = Some (js "code")).
  { unfold code_params. rewrite merged_kept;
      [reflexivity|apply code_literal_keys|now apply obj_has_false]. }
  assert (R' : obj_get (token_params o') (js "response_type")
               = Some (js "token")).
  { unfold token_params. rewrite merged_kept;
      [reflexivity|apply token_literal_keys|now apply obj_has_false]. }
  split; [exact (query_of_present _ _ R)|].
  split; [exact (query_of_present _ _ R')|].
  split; [apply merged_NoDup, code_literal_keys|].
  split; [apply merged_NoDup, token_literal_keys|].
  split; [exact R|]. split; [exact R'|].
  split.
  { intros k v Hk. unfold code_params.
    rewrite merged_get by (apply code_literal_keys || exact Hd).
    now rewrite Hk. }
  split.
  { intros k v Hk. unfold token_params.
    rewrite merged_get by (apply token_literal_keys || exact Hd').
    now rewrite Hk. }
  split.
  { intros Hs. unfold code_params.
    rewrite merged_kept;
      [|apply code_literal_keys|now apply obj_has_false].
    unfold code_literal. destruct (AuthCode.scopes o); reflexivity. }
  split.
  { intros Hs. unfold token_params.
    rewrite merged_kept;
      [|apply token_literal_keys|now apply obj_has_false].
    unfold token_literal. destruct (ImplicitGrant.scopes o'); reflexivity. }
  split.
  { intros Hc. unfold code_params.
    rewrite merged_kept;
      [reflexivity|apply code_literal_keys|now apply obj_has_false]. }
  split; intros k Hk; apply merged_names in Hk; exact Hk.
Qed.

(** C8, amended. For every argument of the URL builders that has no
    property named [scope], the query string is the url-encoding of a list
    of parameters, each name once, in which [scope] is the scope
    identifiers joined by single spaces, in the order given and with its
    duplicates; when such an argument has no scope list, the list has no
    parameter named [scope]. *)
Theorem scope_parameter (c : Credentials) (o : GetAuthURLOpts)
    (o' : ImplicitGrant.GetRedirectURLOpts) :
  obj_has (AuthCode.opts o) (js "scope") = false ->
  obj_has (ImplicitGrant.opts o') (js "scope") = false ->
  let url := getAuthURL SPOTIFY_AUTH (new_AuthCode c) o in
  let url' := ImplicitGrant.getRedirectURL AUTHORIZE_URL o' in
  exists ps ps',
    url_query url = query_of ps
    /\ url_query url' = query_of ps'
    /\ NoDup (map fst ps)
    /\ NoDup (map fst ps')
    /\ obj_get ps (js "scope")
       = option_map (join (js " ")) (AuthCode.scopes o)
    /\ obj_get ps' (js "scope")
       = option_map (join (js " ")) (ImplicitGrant.scopes o')
    /\ (AuthCode.scopes o = None -> ~ In (js "scope") (map fst ps))
    /\ (ImplicitGrant.scopes o' = None -> ~ In (js "scope") (map fst ps')).
Proof.
  intros Hs Hs'. cbv zeta.
  exists (code_params c o), (token_params o').
  rewrite getAuthURL_query, getRedirectURL_query. cbn [url_query].
  assert (S : obj_get (code_params c o) (js "scope")
              = option_map (join (js " ")) (AuthCode.scopes o)).
  { unfold code_params.
    rewrite merged_kept;
      [|apply code_literal_keys|now apply obj_has_false].
    unfold code_literal. destruct (AuthCode.scopes o); reflexivity. }
  assert (S' : obj_get (token_params o') (js "scope")
               = option_map (join (js " ")) (ImplicitGrant.scopes o')).
  { unfold token_params.
    rewrite merged_kept;
      [|apply token_literal_keys|now apply obj_has_false].
    unfold token_literal. destruct (ImplicitGrant.scopes o'); reflexivity. }
  split; [reflexivity|]. split; [reflexivity|].
  split; [apply merged_NoDup, code_literal_keys|].
  split; [apply merged_NoDup, token_literal_keys|].
  split; [exact S|]. split; [exact S'|].
  split; intros E; apply obj_get_absent.
  - now rewrite S, E.
  - now rewrite S', E.
Qed.

End Endpoints.

(** An instance: the accounts service and an application. *)
Definition accounts : jsstring := js "https://accounts.spotify.com/".

Definition client_app : Credentials :=
  {| client_id := js "id"; client_secret := js "secret" |}.

Example basic_auth_header :
  basicAuthHeader (new_AuthCode client_app) = js "Basic aWQ6c2VjcmV0".
Proof. vm_compute. reflexivity. Qed.

(** The success response of the spec's example: status 200 and a token
    pair. *)
Definition token_pair : Json :=
  JsonObject
    [(js "access_token", JsonString (js "NgCXRK"));
     (js "token_type", JsonString (js "Bearer"));
     (js "scope", JsonString (js "user-read-private user-read-email"));
     (js "expires_in", JsonNumber 3600);
     (js "refresh_token", JsonString (js "NgAagA"))].

Example exchange_success :
  run (fun _ => Responded {| res_status := 200; res_json := Some token_pair |})
    (getGrantData accounts (new_AuthCode client_app)
       (js "https://example.org/cb") (js "c0de"))
  = ([grant_request accounts client_app (js "https://example.org/cb")
        (js "c0de")],
     inr token_pair).
Proof. now rewrite run_getGrantData. Qed.

(** C1, as stated, fails: the exchange request has no body, its parameters
    are in the query of the URL. *)
Lemma getGrantData_sends_no_body :
  let call :=
    getGrantData accounts (new_AuthCode client_app) (js "https://example.org/cb")
      (js "c0de") in
  map body_params (requests (fun _ => Failed) call) = [None]
  /\ map (fun req => url_href (req_url req)) (requests (fun _ => Failed) call)
     = [js "https://accounts.spotify.com/api/token?code=c0de&redirect_uri=https%3A%2F%2Fexample.org%2Fcb&grant_type=authorization_code"].
Proof. split; vm_compute; reflexivity. Qed.

(** A response with a success status whose body is not JSON. *)
Definition not_json : Response := {| res_status := 200; res_json := None |}.

(** C2, as stated, fails: on a success status the exchange and the refresh
    still fail when the body is not JSON. *)
Lemma success_status_can_fail :
  res_ok not_json = true
  /\ settles (fun _ => Responded not_json)
       (getGrantData accounts (new_AuthCode client_app) (js "https://example.org/cb")
          (js "c0de"))
     = inl SyntaxError
  /\ settles (fun _ => Responded not_json)
       (refresh accounts (new_AuthCode client_app) (js "r3fresh"))
     = inl SyntaxError.
Proof. repeat split; vm_compute; reflexivity. Qed.

(** The error response of the spec's example: status 400 and the body
    [{"error": "invalid_grant"}]. *)
Definition invalid_grant : Response :=
  {| res_status := 400;
     res_json := Some (JsonObject [(js "error", JsonString (js "invalid_grant"))]) |}.

Lemma token_call_outcome_witness :
  let net : Network := fun _ => Responded invalid_grant in
  let body := JsonObject [(js "error", JsonString (js "invalid_grant"))] in
  (forall req, net req = Responded invalid_grant)
  /\ res_json invalid_grant = Some body
  /\ settles net
       (getGrantData accounts (new_AuthCode client_app) (js "https://example.org/cb")
          (js "c0de"))
     = inl (SpotifyAuthError body 400)
  /\ settles net (refresh accounts (new_AuthCode client_app) (js "r3fresh"))
     = inl (SpotifyAuthError body 400).
Proof.
  cbv zeta.
  split; [reflexivity|]. split; [reflexivity|].
  pose proof (token_call_outcome accounts client_app (js "https://example.org/cb")
                (js "c0de") (js "r3fresh") (fun _ => Responded invalid_grant)
                (fun _ => eq_refl) eq_refl) as H.
  cbv zeta in H. destruct H as [H1 [H2 _]]. split; [exact H1|exact H2].
Defined.

(** The authorization endpoint, and two requests: the one of the example
    in the documentation of [getAuthURL], with [show_dialog], and a minimal
    one for the implicit flow. *)
Definition authorize : jsstring := js "https://accounts.spotify.com/authorize".

Definition sample_request : GetAuthURLOpts :=
  {| AuthCode.scopes := Some [js "user-read-email"; js "user-read-private"];
     AuthCode.opts :=
       [(js "redirect_uri", JString (js "https://example.org/cb"));
        (js "state", JString (js "123abc"));
        (js "show_dialog", JBoolean true)] |}.

Definition sample_redirect : ImplicitGrant.GetRedirectURLOpts :=
  {| ImplicitGrant.scopes := None;
     ImplicitGrant.opts :=
       [(js "client_id", JString (js "id"));
        (js "redirect_uri", JString (js "https://example.org/cb"))] |}.

Example sample_request_url :
  url_href (getAuthURL accounts (new_AuthCode client_app) sample_request)
  = js "https://accounts.spotify.com/authorize?response_type=code&scope=user-read-email+user-read-private&client_id=id&redirect_uri=https%3A%2F%2Fexample.org%2Fcb&state=123abc&show_dialog=true".
Proof. vm_compute. reflexivity. Qed.

(** C6, as stated, fails: a [response_type] among the options replaces the
    literal of the flow. *)
Lemma response_type_can_be_replaced :
  let o :=
    {| AuthCode.scopes := None;
       AuthCode.opts :=
         [(js "redirect_uri", JString (js "https://example.org/cb"));
          (js "response_type", JString (js "token"))] |} in
  let o' :=
    {| ImplicitGrant.scopes := None;
       ImplicitGrant.opts :=
         [(js "client_id", JString (js "id"));
          (js "redirect_uri", JString (js "https://example.org/cb"));
          (js "response_type", JString (js "code"))] |} in
  url_href (getAuthURL accounts (new_AuthCode client_app) o)
  = js "https://accounts.spotify.com/authorize?response_type=token&client_id=id&redirect_uri=https%3A%2F%2Fexample.org%2Fcb"
  /\ url_href (ImplicitGrant.getRedirectURL authorize o')
     = js "https://accounts.spotify.com/authorize?response_type=code&client_id=id&redirect_uri=https%3A%2F%2Fexample.org%2Fcb".
Proof. split; vm_compute; reflexivity. Qed.

(** C8, as stated, fails: a [scope] among the options replaces the joined
    scope list, and is in the URL when no scope list is given. *)
Lemma scope_can_be_replaced :
  let rest :=
    [(js "redirect_uri", JString (js "https://example.org/cb"));
     (js "scope", JString (js "streaming"))] in
  let o :=
    {| AuthCode.scopes := Some [js "user-read-email"; js "user-read-private"];
       AuthCode.opts := rest |} in
  let o0 := {| AuthCode.scopes := None; AuthCode.opts := rest |} in
  let o' :=
    {| ImplicitGrant.scopes := None;
       ImplicitGrant.opts := (js "client_id", JString (js "id")) :: rest |} in
  url_href (getAuthURL accounts (new_AuthCode client_app) o)
  = js "https://accounts.spotify.com/authorize?response_type=code&scope=streaming&client_id=id&redirect_uri=https%3A%2F%2Fexample.org%2Fcb"
  /\ url_href (getAuthURL accounts (new_AuthCode client_app) o0)
     = js "https://accounts.spotify.com/authorize?response_type=code&scope=streaming&client_id=id&redirect_uri=https%3A%2F%2Fexample.org%2Fcb"
  /\ url_href (ImplicitGrant.getRedirectURL authorize o')
     = js "https://accounts.spotify.com/authorize?response_type=token&scope=streaming&client_id=id&redirect_uri=https%3A%2F%2Fexample.org%2Fcb".
Proof. repeat split; vm_compute; reflexivity. Qed.

(** C10, as stated, fails: a [refresher] among the options replaces the
    bound closure; the refresher handed to the provider constructor is then
    the caller's function, and [refresh] is not called. *)
Lemma refresher_can_be_replaced :
  let own : unit -> Async Json := fun _ => Resolve (JsonObject []) in
  let given : JsObject (ProviderOption unit) :=
    createAuthProvider accounts (fun o => o) (new_AuthCode client_app)
      (js "r3fresh") [(js "refresher", Refresher own)] in
  option_map (fun r => run (fun _ => Failed) (r tt)) (refresher_of given)
  = Some ([], inr (JsonObject []))
  /\ run (fun _ => Failed)
       (refresh accounts (new_AuthCode client_app) (js "r3fresh"))
     = ([refresh_request accounts client_app (js "r3fresh")],
        inl NetworkError).
Proof.
  cbv zeta. split; [vm_compute; reflexivity|]. now rewrite run_refresh.
Qed.

Lemma refresher_is_bound_witness :
  let opts : JsObject (ProviderOption jsstring) :=
    [(js "token", Setting (js "NgCXRK"))] in
  let net : Service nat := fun n _ => (Failed, S n) in
  obj_has opts (js "refresher") = false
  /\ exists r,
       refresher_of
         (createAuthProvider accounts (fun o => o) (new_AuthCode client_app)
            (js "r3fresh") opts) = Some r
       /\ fst (fst (run_in net (r tt) O))
          = [refresh_request accounts client_app (js "r3fresh")].
Proof.
  cbv zeta. split; [reflexivity|].
  destruct (@refresher_is_bound accounts jsstring client_app (js "r3fresh")
              [(js "token", Setting (js "NgCXRK"))] eq_refl)
    as (r & Hr & _ & Hrun & _).
  exists r. split; [exact Hr|apply Hrun].
Defined.

Lemma sample_request_keys : NoDup (obj_keys (AuthCode.opts sample_request)).
Proof. apply distinct_NoDup. reflexivity. Defined.

Lemma sample_redirect_keys :
  NoDup (obj_keys (ImplicitGrant.opts sample_redirect)).
Proof. apply distinct_NoDup. reflexivity. Defined.

Lemma response_type_is_fixed_witness :
  NoDup (obj_keys (AuthCode.opts sample_request))
  /\ NoDup (obj_keys (ImplicitGrant.opts sample_redirect))
  /\ obj_has (AuthCode.opts sample_request) (js "response_type") = false
  /\ obj_has (ImplicitGrant.opts sample_redirect) (js "response_type") = false
  /\ exists ps ps',
       url_query (getAuthURL accounts (new_AuthCode client_app) sample_request)
       = Some (serialize ps)
       /\ url_query (ImplicitGrant.getRedirectURL authorize sample_redirect)
          = Some (serialize ps')
       /\ obj_get ps (js "response_type") = Some (js "code")
       /\ obj_get ps' (js "response_type") = Some (js "token")
       /\ obj_get ps (js "show_dialog") = Some (js "true").
Proof.
  split; [exact sample_request_keys|]. split; [exact sample_redirect_keys|].
  split; [reflexivity|]. split; [reflexivity|].
  destruct (@response_type_is_fixed accounts authorize client_app
              sample_request sample_redirect sample_request_keys
              sample_redirect_keys eq_refl eq_refl)
    as (ps & ps' & H1 & H2 & _ & _ & H3 & H4 & H5 & _).
  exists ps, ps'. split; [exact H1|]. split; [exact H2|].
  split; [exact H3|]. split; [exact H4|].
  exact (H5 (js "show_dialog") (JBoolean true) eq_refl).
Defined.

Lemma scope_parameter_witness :
  obj_has (AuthCode.opts sample_request) (js "scope") = false
  /\ obj_has (ImplicitGrant.opts sample_redirect) (js "scope") = false
  /\ exists ps ps',
       url_query (getAuthURL accounts (new_AuthCode client_app) sample_request)
       = query_of ps
       /\ url_query (ImplicitGrant.getRedirectURL authorize sample_redirect)
          = query_of ps'
       /\ obj_get ps (js "scope")
          = Some (js "user-read-email user-read-private")
       /\ ~ In (js "scope") (map fst ps').
Proof.
  split; [reflexivity|]. split; [reflexivity|].
  destruct (@scope_parameter accounts authorize client_app sample_request
              sample_redirect eq_refl eq_refl)
    as (ps & ps' & H1 & H2 & _ & _ & H3 & _ & _ & H4).
  exists ps, ps'. split; [exact H1|]. split; [exact H2|].
  split; [exact H3|]. exact (H4 eq_refl).
Defined.

End FlowFacts.

(** ** Encoding and decoding a mapping *)

Module RoundTrip.

Import Transcode Codec QueryFacts MappingFacts AuthCode FlowFacts.

Section Endpoints.

Variable SPOTIFY_AUTH : jsstring.
Variable AUTHORIZE_URL : jsstring.

(** What an authorization request gives a name: the property of that name
    among the options when there is one, otherwise what the builder writes
    for it. *)
Definition requested (literal opts : JsObject JsValue) (k : jsstring)
  : option JsValue :=
  match obj_get opts k with
  | Some v => Some v
  | None => obj_get literal k
  end.

Lemma decode_merged base literal opts k :
  NoDup (obj_keys literal) -> NoDup (obj_keys opts) ->
  text_well_formed literal = true -> text_well_formed opts = true ->
  obj_get
    (decode
       (url_search
          {| url_base := base;
             url_query := query_of (rendered (obj_spread literal opts)) |}))
    k
  = present (requested literal opts k).
Proof.
  intros Hl Ho Wl Wo. rewrite decode_query_of.
  - now apply merged_get.
  - now apply merged_NoDup.
  - now apply rendered_well_formed, text_well_formed_spread.
Qed.

(** C7, amended. For every mapping without duplicate keys whose names and
    values are well-formed text, decoding the encoding of the mapping
    yields its present entries, every value as a string: a string as
    itself, a number or a boolean as the text [toString] writes for it; an
    undefined entry is absent.  Consequently the query string of a built
    authorization URL decodes to a mapping that gives every name the text
    of what the request gives it, and nothing when that is undefined or
    absent. *)
Theorem decode_encode_rendered (m : JsObject JsValue) (c : Credentials)
    (o : GetAuthURLOpts) (o' : ImplicitGrant.GetRedirectURLOpts) :
  NoDup (obj_keys m) ->
  text_well_formed m = true ->
  NoDup (obj_keys (AuthCode.opts o)) ->
  text_well_formed (code_literal c o) = true ->
  text_well_formed (AuthCode.opts o) = true ->
  NoDup (obj_keys (ImplicitGrant.opts o')) ->
  text_well_formed (token_literal o') = true ->
  text_well_formed (ImplicitGrant.opts o') = true ->
  decode (toQueryString m) = rendered m
  /\ (forall k, obj_get m k = Some JUndefined ->
                obj_get (decode (toQueryString m)) k = None)
  /\ (forall k,
        obj_get
          (decode (url_search (getAuthURL SPOTIFY_AUTH (new_AuthCode c) o))) k
        = present (requested (code_literal c o) (AuthCode.opts o) k))
  /\ (forall k,
        obj_get
          (decode
             (url_search (ImplicitGrant.getRedirectURL AUTHORIZE_URL o'))) k
        = present (requested (token_literal o') (ImplicitGrant.opts o') k)).
Proof.
  intros Hd Hw Ho Wl Wo Ho' Wl' Wo'.
  assert (E : decode (toQueryString m) = rendered m).
  { unfold toQueryString, params_toString.
    rewrite objectToSearchParams_rendered by exact Hd.
    apply decode_serialize.
    - now apply rendered_NoDup.
    - now apply rendered_well_formed. }
  split; [exact E|]. split; [|split].
  - intros k Hk. rewrite E. now apply rendered_undefined.
  - intros k. rewrite getAuthURL_query. unfold code_params.
    apply decode_merged; try assumption. apply code_literal_keys.
  - intros k. rewrite getRedirectURL_query. unfold token_params.
    apply decode_merged; try assumption. apply token_literal_keys.
Qed.

End Endpoints.

(** C7, as stated, fails: a number comes back as a string, and a string
    with a lone surrogate comes back with U+FFFD in its place. *)
Lemma decode_encode_not_exact :
  let m := [(js "limit", JNumber (js "20"))] in
  let w := [(js "q", JString [0xD83D])] in
  distinct (obj_keys m) = true
  /\ decode (toQueryString m) = [(js "limit", js "20")]
  /\ as_values (decode (toQueryString m)) <> m
  /\ distinct (obj_keys w) = true
  /\ decode (toQueryString w) = [(js "q", [0xFFFD])]
  /\ as_values (decode (toQueryString w)) <> w.
Proof.
  cbv zeta. repeat split; try (vm_compute; reflexivity);
    vm_compute; discriminate.
Qed.

(** The text of a number is what is encoded, whatever the number: the
    exponent form of a large one keeps its sign, which the serializer
    escapes. *)
Example large_number :
  toQueryString [(js "limit", JNumber (js "1e+21"))] = js "limit=1e%2B21"
  /\ decode (toQueryString [(js "limit", JNumber (js "1e+21"))])
     = [(js "limit", js "1e+21")].
Proof. split; vm_compute; reflexivity. Qed.

Lemma decode_encode_rendered_witness :
  let m := [(js "market", JString (js "ES")); (js "offset", JUndefined);
            (js "limit", JNumber (js "20"))] in
  NoDup (obj_keys m)
  /\ text_well_formed m = true
  /\ NoDup (obj_keys (AuthCode.opts sample_request))
  /\ text_well_formed (code_literal client_app sample_request) = true
  /\ text_well_formed (AuthCode.opts sample_request) = true
  /\ NoDup (obj_keys (ImplicitGrant.opts sample_redirect))
  /\ text_well_formed (token_literal sample_redirect) = true
  /\ text_well_formed (ImplicitGrant.opts sample_redirect) = true
  /\ decode (toQueryString m) = [(js "market", js "ES"); (js "limit", js "20")]
  /\ obj_get
       (decode
          (url_search
             (getAuthURL accounts (new_AuthCode client_app) sample_request)))
       (js "show_dialog")
     = Some (js "true")
  /\ obj_get
       (decode
          (url_search (ImplicitGrant.getRedirectURL authorize sample_redirect)))
       (js "scope")
     = None.
Proof.
  cbv zeta.
  assert (Hd : NoDup (obj_keys [(js "market", JString (js "ES"));
                                (js "offset", JUndefined);
                                (js "limit", JNumber (js "20"))]))
    by (apply distinct_NoDup; vm_compute; reflexivity).
  split; [exact Hd|]. split; [vm_compute; reflexivity|].
  split; [exact sample_request_keys|]. split; [vm_compute; reflexivity|].
  split; [vm_compute; reflexivity|].
  split; [exact sample_redirect_keys|]. split; [vm_compute; reflexivity|].
  split; [vm_compute; reflexivity|].
  destruct (@decode_encode_rendered accounts authorize _ client_app
              sample_request sample_redirect Hd eq_refl sample_request_keys
              eq_refl eq_refl sample_redirect_keys eq_refl eq_refl)
    as [H1 [_ [H2 H3]]].
  split; [exact H1|]. split; [exact (H2 (js "show_dialog"))|].
  exact (H3 (js "scope")).
Defined.

End RoundTrip.

(** ** The auth provider's refreshes *)

Module ProviderFacts.

Import Provider.

Local Open Scope Z_scope.

Section Calls.

Context {W : Type} (env : World W).

Lemma call_valid c w :
  now env w < expires_at c ->
  call env (Some c) w = (inr (cached_token c), Some c, w, O).
Proof.
  intros H. unfold call. cbn.
  destruct (Z.leb_spec (expires_at c) (now env w)); [lia|reflexivity].
Qed.

Lemma call_refresh st w :
  needs_refresh st (now env w) = true ->
  call env st w =
  match call_refresher env w with
  | (inl e, w') => (inl e, st, w', 1%nat)
  | (inr t, w') =>
      (inr (access_token t),
       Some {| cached_token := access_token t;
               expires_at := now env w' + expires_in t |},
       w', 1%nat)
  end.
Proof.
  unfold call. destruct st as [c|]; cbn; intros H; [rewrite H|];
    unfold refresh_and_cache; cbn [run_task];
    destruct (call_refresher env w) as [[e|t] w']; reflexivity.
Qed.

(** C4. A call of [getAccessToken] invokes the refresh function exactly
    once when the provider is Empty or the expiry time of its cached token
    is not after the current time, and not at all when the cached token is
    unexpired: it then returns the cached access token and leaves the world
    as it is.  For a provider seeded with a token whose expiry is past, the
    first call makes one invocation, a second call before the new expiry
    makes none, and a call at or after the new expiry makes one more. *)
Theorem refresh_invocations (st : ProviderState) (w : W) :
  invocations env st w
  = (if needs_refresh st (now env w) then 1 else 0)%nat
  /\ match st with
     | Some c =>
         if expires_at c <=? now env w then True
         else result env st w = inr (cached_token c)
              /\ next_state env st w = st
              /\ world_after env st w = w
     | None => True
     end
  /\ (forall (seed : CachedToken) (w1 w1' w2 w3 : W) (t : TokenPair),
        expires_at seed <= now env w1 ->
        call_refresher env w1 = (inr t, w1') ->
        now env w2 < now env w1' + expires_in t ->
        now env w1' + expires_in t <= now env w3 ->
        let st1 := next_state env (Some seed) w1 in
        invocations env (Some seed) w1 = 1%nat
        /\ st1 = Some {| cached_token := access_token t;
                         expires_at := now env w1' + expires_in t |}
        /\ invocations env st1 w2 = 0%nat
        /\ result env st1 w2 = inr (access_token t)
        /\ invocations env st1 w3 = 1%nat).
Proof.
  split; [|split].
  - unfold invocations. destruct (needs_refresh st (now env w)) eqn:E.
    + rewrite call_refresh by exact E.
      now destruct (call_refresher env w) as [[e|t'] w'].
    + destruct st as [c|]; [|discriminate]. cbn in E.
      rewrite call_valid; [reflexivity|].
      now apply Z.leb_gt.
  - destruct st as [c|]; [|exact I].
    destruct (Z.leb_spec (expires_at c) (now env w)); [exact I|].
    unfold result, next_state, world_after. rewrite call_valid by assumption.
    repeat split.
  - intros seed w1 w1' w2 w3 t Hpast Hok Hbefore Hafter.
    assert (E : call env (Some seed) w1 =
                (inr (access_token t),
                 Some {| cached_token := access_token t;
                         expires_at := now env w1' + expires_in t |},
                 w1', 1%nat)).
    { rewrite call_refresh; [now rewrite Hok|].
      cbn. now apply Z.leb_le. }
    cbv zeta. unfold invocations, next_state, result. rewrite E.
    cbn [fst snd].
    split; [reflexivity|]. split; [reflexivity|].
    rewrite call_valid by exact Hbefore. cbn [fst snd cached_token].
    split; [reflexivity|]. split; [reflexivity|].
    rewrite call_refresh by (cbn; now apply Z.leb_le).
    now destruct (call_refresher env w3) as [[e|t'] w'].
Qed.

(** C5. When the refresh function fails during a call, the state of the
    provider is what it was, Empty or holding the expired token, and the
    caller gets the failure; nothing of the failure is kept, so the next
    call, the clock not having gone back, invokes the refresh function
    again. *)
Theorem refresh_failure (st : ProviderState) (w w' w2 : W) (e : Exn) :
  needs_refresh st (now env w) = true ->
  call_refresher env w = (inl e, w') ->
  now env w <= now env w2 ->
  result env st w = inl e
  /\ next_state env st w = st
  /\ invocations env st w = 1%nat
  /\ invocations env (next_state env st w) w2 = 1%nat.
Proof.
  intros Hneed Hfail Hclock.
  assert (E : call env st w = (inl e, st, w', 1%nat)).
  { rewrite call_refresh by exact Hneed. now rewrite Hfail. }
  unfold result, next_state, invocations. rewrite E. cbn [fst snd].
  repeat split.
  rewrite call_refresh.
  - now destruct (call_refresher env w2) as [[e2|t2] w2'].
  - destruct st as [c|]; [|reflexivity]. cbn in *.
    apply Z.leb_le. apply Z.leb_le in Hneed. lia.
Qed.

End Calls.

(** A world whose state is the time: a refresh takes one unit of time and
    yields a token that lasts an hour, or fails. *)
Definition fresh_token : TokenPair :=
  {| access_token := js "NgCXRK";
     token_type := js "Bearer";
     scope := js "user-read-email";
     expires_in := 3600;
     refresh_token := None |}.

Definition granting : World Z :=
  {| now := fun w => w;
     call_refresher := fun w => (inr fresh_token, w + 1) |}.

Definition refusing : World Z :=
  {| now := fun w => w;
     call_refresher :=
       fun w => (inl (SpotifyAuthError JsonNull 400), w + 1) |}.

Definition stale : CachedToken :=
  {| cached_token := js "old"; expires_at := 100 |}.

Lemma refresh_invocations_witness :
  expires_at stale <= now granting 150
  /\ call_refresher granting 150 = (inr fresh_token, 151)
  /\ now granting 200 < now granting 151 + expires_in fresh_token
  /\ now granting 151 + expires_in fresh_token <= now granting 4000
  /\ invocations granting (Some stale) 150 = 1%nat
  /\ invocations granting (next_state granting (Some stale) 150) 200 = 0%nat
  /\ invocations granting (next_state granting (Some stale) 150) 4000 = 1%nat.
Proof.
  assert (H1 : expires_at stale <= now granting 150) by (cbn; lia).
  assert (H2 : now granting 200 < now granting 151 + expires_in fresh_token)
    by (cbn; lia).
  assert (H3 : now granting 151 + expires_in fresh_token <= now granting 4000)
    by (cbn; lia).
  destruct (refresh_invocations granting None 0) as [_ [_ H]].
  destruct (H stale 150 151 200 4000 fresh_token H1 eq_refl H2 H3)
    as [A [_ [B [_ C]]]].
  repeat split; assumption.
Defined.

Lemma refresh_failure_witness :
  needs_refresh (Some stale) (now refusing 150) = true
  /\ call_refresher refusing 150 = (inl (SpotifyAuthError JsonNull 400), 151)
  /\ now refusing 150 <= now refusing 151
  /\ result refusing (Some stale) 150 = inl (SpotifyAuthError JsonNull 400)
  /\ next_state refusing (Some stale) 150 = Some stale
  /\ invocations refusing (next_state refusing (Some stale) 150) 151 = 1%nat.
Proof.
  assert (H : now refusing 150 <= now refusing 151) by (cbn; lia).
  destruct (refresh_failure refusing (Some stale) 150 151 eq_refl eq_refl H)
    as [A [B [_ C]]].
  repeat split; assumption.
Defined.

End ProviderFacts.

(** ** The bundling script *)

Module BuildFacts.

Import BuildScript.

Lemma endsWith_suffix p t : endsWith (p ++ t) t = true.
Proof.
  unfold endsWith. rewrite length_app.
  replace (List.length p + List.length t - List.length t)%nat
    with (List.length p) by lia.
  rewrite skipn_app, skipn_all, Nat.sub_diag. cbn [skipn app].
  rewrite eqb_refl, andb_true_r. apply Nat.leb_le. lia.
Qed.

Lemma endsWith_split s t :
  endsWith s t = true ->
  s = firstn (List.length s - List.length t) s ++ t.
Proof.
  unfold endsWith. intros H. apply andb_true_iff in H as [_ H].
  apply eqb_eq in H.
  transitivity (firstn (List.length s - List.length t) s
                ++ skipn (List.length s - List.length t) s).
  - symmetry. apply firstn_skipn.
  - now rewrite H.
Qed.

Lemma load_rewritten p :
  load (fun x => x) (p ++ js ".deno.ts") = p ++ js ".web.ts".
Proof.
  unfold load. rewrite endsWith_suffix. unfold substring_range.
  rewrite length_app.
  replace (List.length p + List.length (js ".deno.ts")
           - List.length (js ".deno.ts"))%nat
    with (List.length p) by lia.
  rewrite Nat.max_0_l, Nat.min_0_l, Nat.sub_0_r. cbn [skipn].
  rewrite firstn_app, firstn_all, Nat.sub_diag. cbn [firstn].
  now rewrite app_nil_r.
Qed.

Lemma web_is_not_deno p : endsWith (p ++ js ".web.ts") (js ".deno.ts") = false.
Proof.
  unfold endsWith. rewrite length_app.
  destruct p as [|c p] using rev_ind; [reflexivity|].
  apply andb_false_iff. right. apply eqb_neq.
  rewrite length_app. cbn [List.length].
  change (List.length (js ".web.ts")) with 7%nat.
  change (List.length (js ".deno.ts")) with 8%nat.
  replace (List.length p + 1 + 7 - 8)%nat with (List.length p) by lia.
  rewrite <- app_assoc, skipn_app, skipn_all, Nat.sub_diag.
  cbn. intros H. discriminate H.
Qed.

(** X6. The bundler loads a specifier that ends in [.deno.ts] under the
    same name ending in [.web.ts] and any other specifier unchanged; the
    name it loads never ends in [.deno.ts], so that rewriting a name twice
    is rewriting it once. *)
Theorem load_web_specifier (p s : jsstring) :
  load (fun x => x) (p ++ js ".deno.ts") = p ++ js ".web.ts"
  /\ (if endsWith s (js ".deno.ts")
      then List.length (load (fun x => x) s) = (List.length s - 1)%nat
      else load (fun x => x) s = s)
  /\ endsWith (load (fun x => x) s) (js ".deno.ts") = false
  /\ load (fun x => x) (load (fun x => x) s) = load (fun x => x) s.
Proof.
  split; [apply load_rewritten|].
  assert (N : endsWith (load (fun x => x) s) (js ".deno.ts") = false).
  { destruct (endsWith s (js ".deno.ts")) eqn:E.
    - rewrite (endsWith_split _ _ E), load_rewritten. apply web_is_not_deno.
    - unfold load. now rewrite E. }
  split; [|split; [exact N|]].
  - destruct (endsWith s (js ".deno.ts")) eqn:E.
    + pose proof (endsWith_split _ _ E) as Hs.
      remember (firstn (List.length s - List.length (js ".deno.ts")) s) as q.
      clear Heqq N E. subst s. rewrite load_rewritten, !length_app.
      change (List.length (js ".web.ts")) with 7%nat.
      change (List.length (js ".deno.ts")) with 8%nat. lia.
    + unfold load. now rewrite E.
  - unfold load at 1. now rewrite N.
Qed.

Lemma after_prefix_app p s : after_prefix p (p ++ s) = Some s.
Proof.
  induction p as [|a p IH]; [reflexivity|].
  cbn. now rewrite N.eqb_refl.
Qed.

Lemma after_prefix_length p s r :
  after_prefix p s = Some r -> (List.length r <= List.length s)%nat.
Proof.
  revert s. induction p as [|a p IH]; intros s H.
  - cbn in H. injection H as ->. lia.
  - destruct s as [|b s]; [discriminate|]. cbn in H.
    destruct (a =? b); [|discriminate]. apply IH in H. cbn. lia.
Qed.

Lemma after_prefix_Forall (P : N -> Prop) p s r :
  after_prefix p s = Some r -> Forall P s -> Forall P r.
Proof.
  revert s. induction p as [|a p IH]; intros s E G.
  - cbn in E. now injection E as <-.
  - destruct s as [|b s]; [discriminate|]. cbn in E.
    destruct (a =? b); [|discriminate].
    inversion G; subst. eapply IH; eassumption.
Qed.

Lemma after_line_length s r :
  after_line s = Some r -> (List.length r < List.length s)%nat.
Proof.
  induction s as [|u s IH]; [discriminate|]. cbn.
  destruct (u =? 10); [intros H; injection H as ->; lia|].
  destruct (line_terminator u); [discriminate|].
  intros H. apply IH in H. lia.
Qed.

Lemma after_line_run m b :
  forallb (fun u => negb (line_terminator u)) m = true ->
  after_line (m ++ 10 :: b) = Some b.
Proof.
  induction m as [|u m IH]; [reflexivity|].
  cbn [forallb app after_line]. intros H.
  apply andb_true_iff in H as [Hu Hm]. apply negb_true_iff in Hu.
  assert (E : (u =? 10) = false).
  { unfold line_terminator in Hu. apply orb_false_iff in Hu as [Hu _].
    apply orb_false_iff in Hu as [Hu _]. now apply orb_false_iff in Hu. }
  rewrite E, Hu. now apply IH.
Qed.

Lemma after_line_no_feed s :
  Forall (fun u => u <> 10) s -> after_line s = None.
Proof.
  induction 1 as [|u s Hu _ IH]; [reflexivity|]. cbn.
  destruct (N.eqb_spec u 10); [contradiction|].
  now destruct (line_terminator u).
Qed.

Lemma remove_source_map_cons u rest :
  remove_source_map (u :: rest)
  = match match_comment (u :: rest) with
    | Some tail => tail
    | None => u :: remove_source_map rest
    end.
Proof. reflexivity. Qed.

(** X7. When the first occurrence of [//# sourceMappingURL=] in the
    bundled code is followed by a line that ends in a line feed, the
    written code is the bundled code without that line, line feed
    included: what precedes it and what follows it, later such comments
    too, is kept. *)
Theorem remove_source_map_first (a m b : jsstring) :
  (forall i, (i < List.length a)%nat ->
     after_prefix source_map_comment
       (skipn i (a ++ source_map_comment ++ m ++ 10 :: b)) = None) ->
  forallb (fun u => negb (line_terminator u)) m = true ->
  remove_source_map (a ++ source_map_comment ++ m ++ 10 :: b) = a ++ b.
Proof.
  intros Ha Hm. induction a as [|u a IH].
  - cbn [app]. change (source_map_comment ++ m ++ 10 :: b)
      with (47 :: tl source_map_comment ++ m ++ 10 :: b).
    rewrite remove_source_map_cons.
    change (47 :: tl source_map_comment ++ m ++ 10 :: b)
      with (source_map_comment ++ m ++ 10 :: b).
    unfold match_comment. rewrite after_prefix_app.
    now rewrite after_line_run.
  - cbn [app]. rewrite remove_source_map_cons. unfold match_comment.
    pose proof (Ha O ltac:(cbn; lia)) as H0. cbn [skipn app] in H0.
    rewrite H0. f_equal. apply IH.
    intros i Hi. apply (Ha (S i)). cbn. lia.
Qed.

(** X8. The written code is never longer than the bundled code, and
    bundled code without a line feed is written as it is: a source-map
    comment that ends the code without a line feed stays. *)
Theorem remove_source_map_keeps (bundledCode : jsstring) :
  (List.length (remove_source_map bundledCode) <= List.length bundledCode)%nat
  /\ (Forall (fun u => u <> 10) bundledCode ->
      remove_source_map bundledCode = bundledCode).
Proof.
  split; [|intros H]; revgoals.
  - induction H as [|u s Hu Hs IH]; [reflexivity|].
    rewrite remove_source_map_cons. unfold match_comment.
    destruct (after_prefix _ _) as [r|] eqn:E;
      [|rewrite IH; reflexivity].
    assert (F : Forall (fun u => u <> 10) r).
    { eapply after_prefix_Forall; [exact E|]. now constructor. }
    rewrite (after_line_no_feed F), IH. reflexivity.
  - induction bundledCode as [|u s IH]; [cbn; lia|].
    rewrite remove_source_map_cons. unfold match_comment.
    destruct (after_prefix _ _) as [r|] eqn:E.
    + destruct (after_line r) as [t|] eqn:L.
      * apply after_prefix_length in E. apply after_line_length in L. lia.
      * cbn [List.length]. lia.
    + cbn [List.length]. lia.
Qed.

Definition bundle_head : jsstring := js "export const a = 1;" ++ [10].

Definition bundle_tail : jsstring :=
  js "//# sourceMappingURL=other.map" ++ [10].

Lemma remove_source_map_first_witness :
  forallb (fun u => negb (line_terminator u)) (js "web.mjs.map") = true
  /\ remove_source_map
       (bundle_head ++ source_map_comment ++ js "web.mjs.map" ++ 10 :: bundle_tail)
     = bundle_head ++ bundle_tail.
Proof.
  split; [reflexivity|].
  apply remove_source_map_first; [|reflexivity].
  intros i Hi.
  assert (B : forallb
                (fun i => match after_prefix source_map_comment
                                  (skipn i (bundle_head ++ source_map_comment
                                            ++ js "web.mjs.map"
                                            ++ 10 :: bundle_tail)) with
                          | None => true
                          | Some _ => false
                          end)
                (seq 0 (List.length bundle_head)) = true)
    by (vm_compute; reflexivity).
  rewrite forallb_forall in B.
  specialize (B i). rewrite in_seq in B.
  destruct (after_prefix _ _); [|reflexivity].
  assert (false = true) by (apply B; lia). discriminate.
Defined.

Lemma remove_source_map_keeps_witness :
  Forall (fun u => u <> 10) (js "a();//# sourceMappingURL=web.mjs.map")
  /\ remove_source_map (js "a();//# sourceMappingURL=web.mjs.map")
     = js "a();//# sourceMappingURL=web.mjs.map".
Proof.
  assert (F : Forall (fun u => u <> 10)
                (js "a();//# sourceMappingURL=web.mjs.map")).
  { apply Forall_forall. intros u Hu Heq. subst u.
    assert (B : existsb (N.eqb 10) (js "a();//# sourceMappingURL=web.mjs.map")
                = false) by (vm_compute; reflexivity).
    assert (existsb (N.eqb 10) (js "a();//# sourceMappingURL=web.mjs.map")
            = true); [|congruence].
    apply existsb_exists. exists 10. split; [exact Hu|reflexivity]. }
  split; [exact F|]. exact (proj2 (remove_source_map_keeps _) F).
Defined.

End BuildFacts.

(** ** The callback route of the example *)

Module HandlerFacts.

Import Callback.

Local Open Scope Z_scope.

Definition is_response (a : Action) : bool :=
  match a with
  | Send _ _ | Redirect _ => true
  | _ => false
  end.

Definition is_exchange (a : Action) : bool :=
  match a with
  | Exchange _ => true
  | _ => false
  end.

Lemma strict_eq_string s v : strict_eq (JString s) v = true -> v = JString s.
Proof.
  destruct v; cbn; try discriminate.
  intros H. apply eqb_eq in H. now subst.
Qed.

Section Handler.

Variables SPOTIFY_ACCESS_TOKEN SPOTIFY_REFRESH_TOKEN SPOTIFY_STATE : jsstring.
Variable env : SpotifyEnv.
Variable platform : Platform.

Let run (req : NextApiRequest) :=
  handler SPOTIFY_ACCESS_TOKEN SPOTIFY_REFRESH_TOKEN SPOTIFY_STATE env
    platform req.

(** The callback carries a state that is a string, and the state cookie is
    that same string, not empty; the callback is not an error. *)
Definition verified (req : NextApiRequest) (data : JsObject JsValue) : Prop :=
  exists u params s,
    url req = Some u /\ u <> []
    /\ searchParams platform u (base_of (host req)) = inr params
    /\ parseCallbackData platform params = inr data
    /\ obj_has data (js "error") = false
    /\ property data "state" = JString s
    /\ getCookie platform SPOTIFY_STATE = JString s
    /\ s <> [].

Definition exchange_arg (data : JsObject JsValue) : JsObject JsValue :=
  [(js "code", property data "code");
   (js "client_id", JString (client_id env));
   (js "client_secret", JString (client_secret env));
   (js "redirect_uri", JString (redirect_uri env))].

Lemma handler_verified req data :
  verified req data ->
  fst (run req)
  = DeleteCookie SPOTIFY_STATE :: Exchange (exchange_arg data)
    :: match getGrantData platform (exchange_arg data) with
       | inr tokens =>
           [SetCookie SPOTIFY_REFRESH_TOKEN (property tokens "refresh_token")
              {| httpOnly := true; sameSite := Some (js "strict");
                 path := Some (js "/api/refresh"); maxAge := None |};
            SetCookie SPOTIFY_ACCESS_TOKEN (property tokens "access_token")
              {| httpOnly := false; sameSite := Some (js "strict");
                 path := None;
                 maxAge := Some (property tokens "expires_in") |};
            Redirect (js "/")]
       | inl e => [Send 400 (StringOf e)]
       end.
Proof.
  intros (u & params & s & Hu & Hne & Hp & Hd & He & Hs & Hc & Hs').
  unfold run, handler. rewrite Hu. destruct u as [|c u]; [contradiction|].
  rewrite Hp, Hd, He, Hs, Hc. cbn [is_string negb orb truthy strict_eq].
  rewrite eqb_refl.
  assert (E : JsString.eqb s [] = false) by now apply eqb_neq.
  rewrite E. cbn [negb orb].
  change (obj_spread (obj_set [] (js "code") (property data "code"))
            (env_object env)) with (exchange_arg data).
  now destruct (getGrantData platform (exchange_arg data)).
Qed.

(** X9. The handler calls the token exchange, deletes the state cookie,
    sets a cookie or redirects only for a callback that is not an error and
    whose state is a string equal to the state cookie, itself a non-empty
    string; it then calls the exchange exactly once, with the code of the
    callback and the three values of [env]. *)
Theorem exchange_requires_state (req : NextApiRequest) (a : Action) :
  In a (fst (run req)) ->
  (forall status body, a <> Send status body) ->
  exists data,
    verified req data
    /\ filter is_exchange (fst (run req)) = [Exchange (exchange_arg data)].
Proof.
  intros Hin Hsend.
  assert (V : exists data, verified req data).
  { destruct (url req) as [[|c u]|] eqn:Hu;
      try (exfalso; revert Hin; unfold run, handler; rewrite Hu; cbn;
           intros [<-|[]]; eapply Hsend; reflexivity).
    destruct (searchParams platform (c :: u) (base_of (host req)))
      as [e|params] eqn:Hp;
      [exfalso; revert Hin; unfold run, handler; rewrite Hu, Hp;
       intros []|].
    destruct (parseCallbackData platform params) as [e|data] eqn:Hd;
      [exfalso; revert Hin; unfold run, handler; rewrite Hu, Hp, Hd;
       intros []|].
    exists data.
    destruct (obj_has data (js "error")) eqn:He;
      [exfalso; revert Hin; unfold run, handler; rewrite Hu, Hp, Hd, He; cbn;
       intros [<-|[]]; eapply Hsend; reflexivity|].
    destruct (negb (is_string (property data "state"))
              || negb (truthy (getCookie platform SPOTIFY_STATE))
              || negb (strict_eq (property data "state")
                         (getCookie platform SPOTIFY_STATE))) eqn:C;
      [exfalso; revert Hin; unfold run, handler; rewrite Hu, Hp, Hd, He, C;
       cbn; intros [<-|[]]; eapply Hsend; reflexivity|].
    apply orb_false_iff in C as [C C3]. apply orb_false_iff in C as [C1 C2].
    apply negb_false_iff in C1, C2, C3.
    destruct (property data "state") as [| s | |] eqn:Hs; try discriminate.
    apply strict_eq_string in C3.
    exists (c :: u), params, s. repeat split; try assumption; try discriminate.
    rewrite C3 in C2. cbn in C2. apply negb_true_iff in C2.
    now apply eqb_neq in C2. }
  destruct V as [data V]. exists data. split; [exact V|].
  rewrite (handler_verified V).
  now destruct (getGrantData platform (exchange_arg data)).
Qed.

(** X10. A handler that returns has sent exactly one response, a status
    with a body or a redirect, as its last action; a handler that throws,
    which it does only when the URL or the callback cannot be parsed, has
    done nothing at all. *)
Theorem one_response (req : NextApiRequest) :
  match snd (run req) with
  | inr _ =>
      exists before r,
        fst (run req) = before ++ [r]
        /\ is_response r = true
        /\ forallb (fun a => negb (is_response a)) before = true
  | inl e =>
      fst (run req) = []
      /\ exists u, url req = Some u
         /\ (searchParams platform u (base_of (host req)) = inl e
             \/ exists params,
                  searchParams platform u (base_of (host req)) = inr params
                  /\ parseCallbackData platform params = inl e)
  end.
Proof.
  unfold run, handler.
  destruct (url req) as [[|c u]|] eqn:Hu;
    try (cbn; exists [], (Send 400 (Text (js "req.url is undefined")));
         repeat split).
  destruct (searchParams platform (c :: u) (base_of (host req)))
    as [e|params] eqn:Hp.
  { cbn. split; [reflexivity|]. exists (c :: u). split; [reflexivity|].
    now left. }
  destruct (parseCallbackData platform params) as [e|data] eqn:Hd.
  { cbn. split; [reflexivity|]. exists (c :: u). split; [reflexivity|].
    right. now exists params. }
  destruct (obj_has data (js "error")).
  { cbn. exists [], (Send 400 (Value (property data "error"))).
    repeat split. }
  destruct (_ || _).
  { cbn. eexists [], _. repeat split. }
  destruct (getGrantData platform _) as [e|tokens]; cbn.
  - eexists [_; _], _. repeat split.
  - eexists [_; _; _; _], _. repeat split.
Qed.

(** X11. A cookie is set only after an exchange that succeeded, and the
    handler then redirects to [/]: the refresh token goes into a cookie
    that is HTTP-only, same-site strict and limited to the path
    [/api/refresh], the access token into a same-site strict cookie that
    lasts [expires_in].  When the exchange fails no cookie is set: the
    state cookie is deleted all the same and the answer is status 400 with
    the text of the error. *)
Theorem cookies_after_exchange (req : NextApiRequest)
    (data : JsObject JsValue) :
  verified req data ->
  match getGrantData platform (exchange_arg data) with
  | inr tokens =>
      run req
      = ([DeleteCookie SPOTIFY_STATE;
          Exchange (exchange_arg data);
          SetCookie SPOTIFY_REFRESH_TOKEN (property tokens "refresh_token")
            {| httpOnly := true; sameSite := Some (js "strict");
               path := Some (js "/api/refresh"); maxAge := None |};
          SetCookie SPOTIFY_ACCESS_TOKEN (property tokens "access_token")
            {| httpOnly := false; sameSite := Some (js "strict");
               path := None; maxAge := Some (property tokens "expires_in") |};
          Redirect (js "/")], inr tt)
  | inl e =>
      run req
      = ([DeleteCookie SPOTIFY_STATE;
          Exchange (exchange_arg data);
          Send 400 (StringOf e)], inr tt)
  end.
Proof.
  intros V. pose proof (handler_verified V) as H.
  assert (R : snd (run req) = inr tt).
  { destruct V as (u & params & s & Hu & Hne & Hp & Hd & He & Hs & Hc & Hs').
    unfold run, handler. rewrite Hu. destruct u as [|c u]; [contradiction|].
    rewrite Hp, Hd, He, Hs, Hc. cbn [is_string negb orb truthy strict_eq].
    rewrite eqb_refl.
    assert (E : JsString.eqb s [] = false) by now apply eqb_neq.
    rewrite E. cbn [negb orb].
    now destruct (getGrantData platform _). }
  destruct (run req) as [actions r]. cbn [fst snd] in *. subst r.
  destruct (getGrantData platform (exchange_arg data)); now subst actions.
Qed.

End Handler.

(** A callback with code and state, the matching state cookie, and an
    exchange that succeeds. *)
Definition sample_platform : Platform :=
  {| searchParams := fun _ _ => inr [(js "code", js "c0de"); (js "state", js "xyz")];
     parseCallbackData :=
       fun params => inr (map (fun kv => (fst kv, JString (snd kv))) params);
     getCookie := fun _ => JString (js "xyz");
     getGrantData :=
       fun _ => inr [(js "access_token", JString (js "NgCXRK"));
                     (js "refresh_token", JString (js "NgAagA"));
                     (js "expires_in", JNumber (js "3600"))] |}.

Definition sample_env : SpotifyEnv :=
  {| client_id := js "id"; client_secret := js "secret";
     redirect_uri := js "https://example.org/api/callback" |}.

Definition sample_req : NextApiRequest :=
  {| url := Some (js "/api/callback?code=c0de&state=xyz");
     host := Some (js "example.org") |}.

Definition sample_data : JsObject JsValue :=
  [(js "code", JString (js "c0de")); (js "state", JString (js "xyz"))].

Lemma sample_verified :
  verified (js "SPOTIFY_STATE") sample_platform sample_req sample_data.
Proof.
  exists (js "/api/callback?code=c0de&state=xyz"),
    [(js "code", js "c0de"); (js "state", js "xyz")], (js "xyz").
  repeat split; discriminate.
Defined.

Lemma exchange_requires_state_witness :
  let actions :=
    fst (handler (js "SPOTIFY_ACCESS_TOKEN") (js "SPOTIFY_REFRESH_TOKEN")
           (js "SPOTIFY_STATE") sample_env sample_platform sample_req) in
  In (Redirect (js "/")) actions
  /\ exists data,
       verified (js "SPOTIFY_STATE") sample_platform sample_req data
       /\ filter is_exchange actions = [Exchange (exchange_arg sample_env data)].
Proof.
  cbv zeta.
  assert (H : In (Redirect (js "/"))
                (fst (handler (js "SPOTIFY_ACCESS_TOKEN")
                        (js "SPOTIFY_REFRESH_TOKEN") (js "SPOTIFY_STATE")
                        sample_env sample_platform sample_req))).
  { cbn. right. right. right. right. left. reflexivity. }
  split; [exact H|].
  destruct (@exchange_requires_state (js "SPOTIFY_ACCESS_TOKEN")
              (js "SPOTIFY_REFRESH_TOKEN") (js "SPOTIFY_STATE") sample_env
              sample_platform sample_req (Redirect (js "/")) H
              ltac:(discriminate)) as [data [V E]].
  exists data. split; assumption.
Defined.

Lemma cookies_after_exchange_witness :
  verified (js "SPOTIFY_STATE") sample_platform sample_req sample_data
  /\ fst (handler (js "SPOTIFY_ACCESS_TOKEN") (js "SPOTIFY_REFRESH_TOKEN")
            (js "SPOTIFY_STATE") sample_env sample_platform sample_req)
     = [DeleteCookie (js "SPOTIFY_STATE");
        Exchange (exchange_arg sample_env sample_data);
        SetCookie (js "SPOTIFY_REFRESH_TOKEN") (JString (js "NgAagA"))
          {| httpOnly := true; sameSite := Some (js "strict");
             path := Some (js "/api/refresh"); maxAge := None |};
        SetCookie (js "SPOTIFY_ACCESS_TOKEN") (JString (js "NgCXRK"))
          {| httpOnly := false; sameSite := Some (js "strict");
             path := None; maxAge := Some (JNumber (js "3600")) |};
        Redirect (js "/")].
Proof.
  split; [exact sample_verified|].
  pose proof (@cookies_after_exchange (js "SPOTIFY_ACCESS_TOKEN")
                (js "SPOTIFY_REFRESH_TOKEN") (js "SPOTIFY_STATE") sample_env
                sample_platform sample_req sample_data sample_verified) as H.
  cbn [getGrantData sample_platform] in H. rewrite H. reflexivity.
Defined.

End HandlerFacts.

(** ** More on the two flows *)

Module FlowExtras.

Import Transcode Codec QueryFacts MappingFacts AuthCode FlowFacts CallbackFacts.

(** The characters of a serialized parameter list: the ASCII letters and
    digits and [* - . _ + % = &]. *)
Definition plain_char (u : N) : bool :=
  is_alnum u
  || existsb (N.eqb u) [42; 45; 46; 95; 43; 37; 61; 38].

Lemma serialized_plain u : serialized_char u -> plain_char u = true.
Proof.
  unfold serialized_char, urlencoded_char, urlencoded_safe, plain_char.
  cbn [existsb].
  intros [H|[->| ->]]; [|reflexivity..].
  destruct (is_alnum u); [reflexivity|]. cbn [orb] in *.
  destruct (u =? 42), (u =? 45), (u =? 46), (u =? 95), (u =? 43), (u =? 37);
    try reflexivity; discriminate H.
Qed.

Definition plain_query (u : URL) : Prop :=
  match url_query u with
  | Some q => q <> [] /\ forallb plain_char q = true
  | None => False
  end.

Lemma plain_query_serialize base p l :
  plain_query {| url_base := base; url_query := Some (serialize (p :: l)) |}.
Proof.
  unfold plain_query. cbn [url_query]. split; [apply serialize_nonempty|].
  apply forallb_forall. intros u Hu.
  apply serialized_plain.
  pose proof (serialize_chars (p :: l)) as F.
  rewrite Forall_forall in F. now apply F.
Qed.

Lemma plain_query_present base ps k v :
  obj_get ps k = Some v ->
  plain_query {| url_base := base; url_query := query_of ps |}.
Proof.
  destruct ps as [|p l]; [discriminate|]. intros _.
  apply plain_query_serialize.
Qed.

Lemma plain_query_of base ps q :
  query_of ps = Some q ->
  plain_query {| url_base := base; url_query := Some q |}.
Proof.
  destruct ps as [|p l]; [discriminate|]. intros [= <-].
  apply plain_query_serialize.
Qed.

Section Endpoints.

Variable SPOTIFY_AUTH : jsstring.
Variable AUTHORIZE_URL : jsstring.

(** X1. When [fetch] rejects, the exchange and the refresh reject with the
    same failure after their one request: neither tries again. *)
Theorem failed_fetch_is_not_retried (c : Credentials)
    (redirect_uri code refresh_token : jsstring) (net : Network) :
  (forall req, net req = Failed) ->
  run net (getGrantData SPOTIFY_AUTH (new_AuthCode c) redirect_uri code)
  = ([grant_request SPOTIFY_AUTH c redirect_uri code], inl NetworkError)
  /\ run net (refresh SPOTIFY_AUTH (new_AuthCode c) refresh_token)
     = ([refresh_request SPOTIFY_AUTH c refresh_token], inl NetworkError).
Proof.
  intros H. rewrite run_getGrantData, run_refresh, !H. split; reflexivity.
Qed.

(** X2. The client secret is in no URL: the authorization URL is the same
    whatever the secret, and the URL and the absent body of a token request
    are the same whatever the credentials, which only the [Authorization]
    header carries. *)
Theorem secret_stays_out_of_urls (c c' : Credentials) (secret : jsstring)
    (o : GetAuthURLOpts) (redirect_uri code refresh_token : jsstring)
    (net net' : Network) :
  getAuthURL SPOTIFY_AUTH (new_AuthCode c) o
  = getAuthURL SPOTIFY_AUTH
      (new_AuthCode {| client_id := client_id c; client_secret := secret |}) o
  /\ map (fun r => (req_url r, req_body r))
       (requests net
          (getGrantData SPOTIFY_AUTH (new_AuthCode c) redirect_uri code))
     = map (fun r => (req_url r, req_body r))
         (requests net'
            (getGrantData SPOTIFY_AUTH (new_AuthCode c') redirect_uri code))
  /\ map (fun r => (req_url r, req_body r))
       (requests net (refresh SPOTIFY_AUTH (new_AuthCode c) refresh_token))
     = map (fun r => (req_url r, req_body r))
         (requests net'
            (refresh SPOTIFY_AUTH (new_AuthCode c') refresh_token)).
Proof.
  split; [reflexivity|].
  unfold requests. rewrite !run_getGrantData, !run_refresh.
  split; reflexivity.
Qed.

(** X3. Whatever the options, the codes, the tokens and the credentials,
    the query of a URL the flows build consists of ASCII letters, digits
    and the characters [* - . _ + % = &] only, and is not empty.  Every
    token request has such a query, and so has every authorization URL
    built from options without a property named [response_type]; an
    authorization URL built from other options has such a query or
    none. *)
Theorem queries_are_plain (c : Credentials) (o : GetAuthURLOpts)
    (o' : ImplicitGrant.GetRedirectURLOpts)
    (redirect_uri code refresh_token : jsstring) (net : Network) :
  let url := getAuthURL SPOTIFY_AUTH (new_AuthCode c) o in
  let url' := ImplicitGrant.getRedirectURL AUTHORIZE_URL o' in
  (forall q, url_query url = Some q -> q <> [] /\ forallb plain_char q = true)
  /\ (forall q, url_query url' = Some q ->
                q <> [] /\ forallb plain_char q = true)
  /\ (obj_has (AuthCode.opts o) (js "response_type") = false ->
      plain_query url)
  /\ (obj_has (ImplicitGrant.opts o') (js "response_type") = false ->
      plain_query url')
  /\ Forall (fun r => plain_query (req_url r))
       (requests net
          (getGrantData SPOTIFY_AUTH (new_AuthCode c) redirect_uri code))
  /\ Forall (fun r => plain_query (req_url r))
       (requests net (refresh SPOTIFY_AUTH (new_AuthCode c) refresh_token)).
Proof.
  cbv zeta. rewrite getAuthURL_query, getRedirectURL_query.
  unfold requests. rewrite run_getGrantData, run_refresh. cbn [fst url_query].
  split; [intros q Hq; exact (plain_query_of (SPOTIFY_AUTH ++ js "authorize") _ Hq)|].
  split; [intros q Hq; exact (plain_query_of AUTHORIZE_URL _ Hq)|].
  split.
  { intros Hr. eapply plain_query_present with (k := js "response_type").
    unfold code_params. rewrite merged_kept;
      [reflexivity|apply code_literal_keys|now apply obj_has_false]. }
  split.
  { intros Hr. eapply plain_query_present with (k := js "response_type").
    unfold token_params. rewrite merged_kept;
      [reflexivity|apply token_literal_keys|now apply obj_has_false]. }
  split; (constructor; [apply plain_query_serialize|constructor]).
Qed.

Lemma scope_of_getAuthURL c o :
  obj_has (AuthCode.opts o) (js "scope") = false ->
  forallb well_formed (obj_keys (AuthCode.opts o)) = true ->
  obj_get
    (Object_fromEntries
       (url_searchParams (getAuthURL SPOTIFY_AUTH (new_AuthCode c) o)))
    (js "scope")
  = option_map (fun l => scrub (join (js " ") l)) (AuthCode.scopes o).
Proof.
  intros Hs Hw. rewrite getAuthURL_query, searchParams_query_of.
  rewrite parsed_get.
  - unfold code_params. rewrite merged_kept;
      [|apply code_literal_keys|now apply obj_has_false].
    unfold code_literal. destruct (AuthCode.scopes o); reflexivity.
  - intros n Hn. apply merged_names in Hn as [Hn|Hn].
    + cbn in Hn. destruct Hn as [<-|[<-|[<-|[]]]]; reflexivity.
    + rewrite forallb_forall in Hw. now apply Hw.
  - apply merged_NoDup, code_literal_keys.
Qed.

(** X4. The scope list can be read back from the authorization URL, when
    the options have no property named [scope] and well-formed names: if
    no identifier holds a space, splitting the decoded scope parameter at
    the spaces gives the list that was passed, in its order and with its
    duplicates. *)
Theorem scopes_recoverable (c : Credentials) (o : GetAuthURLOpts)
    (l : list AuthScope) :
  AuthCode.scopes o = Some l ->
  obj_has (AuthCode.opts o) (js "scope") = false ->
  forallb well_formed (obj_keys (AuthCode.opts o)) = true ->
  l <> [] ->
  Forall (Forall (fun u => u <> 32)) l ->
  well_formed (join (js " ") l) = true ->
  option_map (split_on 32)
    (obj_get
       (Object_fromEntries
          (url_searchParams (getAuthURL SPOTIFY_AUTH (new_AuthCode c) o)))
       (js "scope"))
  = Some l.
Proof.
  intros Hs Ho Hn Hne Hsp Hwf.
  rewrite scope_of_getAuthURL by assumption. rewrite Hs. cbn [option_map].
  rewrite scrub_well_formed by exact Hwf. f_equal. now apply split_join.
Qed.

End Endpoints.

(** X5. What the serializer writes for a list of well-formed pairs with
    distinct names, placed after [#], the parser gives back as it is when
    the pairs have one of the two shapes, and rejects otherwise. *)
Theorem parseCallbackData_of_serialized (l : list (jsstring * jsstring)) :
  NoDup (map fst l) ->
  fields_well_formed l = true ->
  ImplicitGrant.parseCallbackData (js "#" ++ serialize l)
  = if is_error_data l || is_success_data l then inr l
    else inl (Error (js "Invalid params")).
Proof.
  intros Hd Hw. unfold ImplicitGrant.parseCallbackData.
  change (substring 1 (js "#" ++ serialize l)) with (serialize l).
  fold (decode (serialize l)). rewrite decode_serialize by assumption.
  unfold is_error_data, is_success_data.
  destruct (obj_has l (js "error")); cbn [negb andb orb]; reflexivity.
Qed.

(** X12. The object the parser returns has each name once, with the value
    of the last parameter of that name in the fragment. *)
Theorem parseCallbackData_last_wins (hash : jsstring)
    (d : ImplicitGrant.CallbackData) :
  ImplicitGrant.parseCallbackData hash = inr d ->
  NoDup (obj_keys d)
  /\ forall k,
       obj_get d k = obj_get (rev (new_URLSearchParams (substring 1 hash))) k.
Proof.
  intros H. apply parseCallbackData_returns in H. subst d. unfold decode.
  split; [apply fromEntries_keys|].
  intros k. unfold Object_fromEntries. rewrite fromEntries_acc.
  now destruct (obj_get _ k).
Qed.

Definition token_fragment : list (jsstring * jsstring) :=
  [(js "access_token", js "NgCX RK"); (js "token_type", js "Bearer");
   (js "expires_in", js "3600"); (js "state", js "a&b=c")].

Lemma failed_fetch_is_not_retried_witness :
  (forall req, (fun _ : Request => Failed) req = Failed)
  /\ run (fun _ => Failed)
       (refresh accounts (new_AuthCode client_app) (js "r3fresh"))
     = ([refresh_request accounts client_app (js "r3fresh")],
        inl NetworkError).
Proof.
  split; [reflexivity|].
  exact (proj2 (failed_fetch_is_not_retried accounts client_app
                  (js "https://example.org/cb") (js "c0de") (js "r3fresh")
                  (fun _ => Failed) (fun _ => eq_refl))).
Defined.

Lemma scopes_recoverable_witness :
  option_map (split_on 32)
    (obj_get
       (Object_fromEntries
          (url_searchParams
             (getAuthURL accounts (new_AuthCode client_app) sample_request)))
       (js "scope"))
  = Some [js "user-read-email"; js "user-read-private"].
Proof.
  apply scopes_recoverable.
  - reflexivity.
  - reflexivity.
  - vm_compute. reflexivity.
  - discriminate.
  - repeat constructor; vm_compute; discriminate.
  - vm_compute. reflexivity.
Defined.

(** Options that undo what the builder writes leave the URL without a
    query. *)
Example query_can_be_absent :
  url_query
    (ImplicitGrant.getRedirectURL authorize
       {| ImplicitGrant.scopes := None;
          ImplicitGrant.opts := [(js "response_type", JUndefined)] |})
  = None.
Proof. reflexivity. Qed.

Lemma queries_are_plain_witness :
  obj_has (AuthCode.opts sample_request) (js "response_type") = false
  /\ plain_query (getAuthURL accounts (new_AuthCode client_app) sample_request).
Proof.
  split; [reflexivity|].
  destruct (@queries_are_plain accounts authorize client_app sample_request
              sample_redirect (js "https://example.org/cb") (js "c0de")
              (js "r3fresh") (fun _ => Failed))
    as (_ & _ & H & _).
  exact (H eq_refl).
Defined.

Lemma parseCallbackData_of_serialized_witness :
  NoDup (map fst token_fragment)
  /\ fields_well_formed token_fragment = true
  /\ ImplicitGrant.parseCallbackData (js "#" ++ serialize token_fragment)
     = inr token_fragment.
Proof.
  assert (Hd : NoDup (map fst token_fragment))
    by (apply distinct_NoDup; vm_compute; reflexivity).
  split; [exact Hd|]. split; [vm_compute; reflexivity|].
  exact (@parseCallbackData_of_serialized token_fragment Hd eq_refl).
Defined.

Lemma parseCallbackData_last_wins_witness :
  ImplicitGrant.parseCallbackData (js "#error=a&state=x&error=b")
  = inr [(js "error", js "b"); (js "state", js "x")]
  /\ obj_get [(js "error", js "b"); (js "state", js "x")] (js "error")
     = obj_get
         (rev (new_URLSearchParams
                 (substring 1 (js "#error=a&state=x&error=b"))))
         (js "error").
Proof.
  assert (H : ImplicitGrant.parseCallbackData (js "#error=a&state=x&error=b")
              = inr [(js "error", js "b"); (js "state", js "x")])
    by (vm_compute; reflexivity).
  split; [exact H|].
  exact (proj2 (@parseCallbackData_last_wins _ _ H) (js "error")).
Defined.

End FlowExtras.
